(** * Presentation-exchange matching and credential extension dispatch

    A shallow embedding of [pkg/doc/presexch/api.go] (the [Match] pipeline of
    [PresentationDefinitions]) and of the producers exercised by
    [pkg/doc/verifiable/credential_extension_switch_test.go].

    Conventions of the embedding:
    - a Go function returning [(T, error)] returns an [outcome T]; a nil
      pointer dereference is the third outcome, [Panicked];
    - a slice of struct pointers ([[]*InputDescriptor],
      [[]*InputDescriptorMapping]) is a list of options, [None] being the nil
      pointer; an optional struct field ([*Schema]) is an option;
    - the receiver of [Match] and the presentation are not nil, and an
      option handed to [Match] is a total function on the options;
    - [map[string]T] is a [gmap string T];
    - every [fmt.Errorf] of the source is one constructor of [error], wrapped
      errors ([%w]) being constructor arguments; [Error] renders the message;
    - the libraries the package calls (encoding/json, gval/jsonpath, the
      [verifiable] parser) are the fields of the [Collaborators] class. *)

From stdpp Require Import gmap strings list fin_maps.
From Stdlib Require Import Ascii.

#[local] Set Warnings "-register-all".
Open Scope string_scope.

(** ** Outcomes of Go calls *)

Inductive error : Type :=
  (* an error value produced outside this package *)
  | External (msg : string)
  (* checkJSONLDContextType *)
  | MissingJSONLDContext
  | MissingJSONLDType
  (* parseDescriptorMap *)
  | MissingSubmissionProperty
  | MissingDescriptorMapProperty
  | MarshalDescriptorMapFailed (err : error)
  | UnmarshalDescriptorMapFailed (err : error)
  (* selectByPath *)
  | BuildEvaluatorFailed (err : error)
  | EvaluatePathFailed (jsonPath : string) (err : error)
  | MarshalCredentialFailed (err : error)
  | ParseCredentialFailed (err : error)
  (* evalSubmissionRequirements *)
  | NoCredentialProvided (id : string)
  (* Match *)
  | MarshalVPFailed (err : error)
  | UnmarshalVPFailed (err : error)
  | ParseDescriptorMapFailed (err : error)
  | UnknownDescriptorMapID (id : string)
  | SelectFailed (err : error)
  | SchemaURINotInContext (id : string) (uri context : list string)
  | SubmissionRequirementsFailed (err : error)
  (* CreateCustomCredential *)
  | BuildBaseCredentialFailed (err : error)
  | ApplyExtensionFailed (err : error).

Inductive outcome (A : Type) : Type :=
  | Returned (a : A)
  | Failed (err : error)
  | Panicked.

Arguments Returned {A} a.
Arguments Failed {A} err.
Arguments Panicked {A}.

#[global] Instance outcome_ret : MRet outcome := fun A a => Returned a.

#[global] Instance outcome_bind : MBind outcome :=
  fun A B k o =>
    match o with
    | Returned a => k a
    | Failed err => Failed err
    | Panicked => Panicked
    end.

(** [x, err := f(); if err != nil { return nil, fmt.Errorf("...: %w", err) }] *)
Definition wrap {A : Type} (w : error -> error) (o : outcome A) : outcome A :=
  match o with
  | Returned a => Returned a
  | Failed err => Failed (w err)
  | Panicked => Panicked
  end.

(** ** Data model *)

Definition bytes : Type := list Byte.byte.

(** A Go [interface{}]. Decoded JSON is [nil], [bool], [float64] (kept as its
    literal), [string], [[]interface{}] or [map[string]interface{}]; a caller
    may store a value of any other dynamic type (a struct, a channel) in the
    custom fields, of which only the name of the type is kept. *)
Inductive Value : Type :=
  | Null
  | Bool (b : bool)
  | Number (literal : string)
  | String (s : string)
  | Array (items : list Value)
  | Object (fields : gmap string Value)
  | Other (goType : string).

(** [v.(map[string]interface{})] and [v.([]interface{})] on a map lookup:
    the assertion fails on an absent key (nil interface) and on any other
    dynamic type. *)
Definition asObject (v : option Value) : option (gmap string Value) :=
  match v with
  | Some (Object fields) => Some fields
  | _ => None
  end.

Definition asArray (v : option Value) : option (list Value) :=
  match v with
  | Some (Array items) => Some items
  | _ => None
  end.

Definition PresentationSubmissionJSONLDContext : string :=
  "https://identity.foundation/presentation-exchange/submission/v1".
Definition PresentationSubmissionJSONLDType : string := "PresentationSubmission".
Definition submissionProperty : string := "presentation_submission".
Definition descriptorMapProperty : string := "descriptor_map".

Record Schema : Type := {
  URI : list string;
  Schema_Name : string;
  Schema_Purpose : string
}.

Record Field : Type := {
  Path : list string;
  Filter : gmap string Value
}.

Record Constraints : Type := {
  Fields : list (option Field)
}.

Record InputDescriptor : Type := {
  ID : string;
  Schema_ : option Schema;
  Constraints_ : option Constraints
}.

Record PresentationDefinitions : Type := {
  Name : string;
  Purpose : string;
  InputDescriptors : list (option InputDescriptor)
}.

Record InputDescriptorMapping : Type := {
  Mapping_ID : string;
  Mapping_Path : string
}.

Record PresentationSubmission : Type := {
  DescriptorMap : list (option InputDescriptorMapping)
}.

(** Modelled from the spec: [verifiable.Credential] is declared outside
    src/; the record holds the attributes the spec lists for it. *)
Record Credential : Type := {
  Context : list string;
  Types : list string;
  CustomFields : gmap string Value
}.

(** Modelled from the spec: [verifiable.Presentation] is declared outside
    src/; the record holds its context sequence, its type sequence and its
    custom fields, which are what the package reads of it. *)
Record Presentation : Type := {
  VP_Context : list string;
  VP_Type : list string;
  VP_CustomFields : gmap string Value
}.

(** Handles of the two injected services. *)
Inductive DocumentLoader : Type := Loader (handle : nat).
Inductive PublicKeyFetcher : Type := Fetcher (handle : nat).

(** Modelled from the spec: [verifiable.CredentialOpt] is declared outside
    src/; the three options the spec recognises, as the package builds them. *)
Inductive CredentialOpt : Type :=
  | verifiable_WithJSONLDDocumentLoader (l : DocumentLoader)
  | verifiable_WithPublicKeyFetcher (fetcher : PublicKeyFetcher)
  | verifiable_WithDisabledProofCheck.

Record MatchOptions : Type := {
  CredentialOptions : list CredentialOpt
}.

(** A [MatchOption] is a function mutating the options it is handed: state
    passing. *)
Definition MatchOption : Type := MatchOptions -> MatchOptions.

Definition WithJSONLDDocumentLoader (l : DocumentLoader) : MatchOption :=
  fun m => {| CredentialOptions :=
                CredentialOptions m ++ [verifiable_WithJSONLDDocumentLoader l] |}.

Definition WithPublicKeyFetcher (fetcher : PublicKeyFetcher) : MatchOption :=
  fun m => {| CredentialOptions :=
                CredentialOptions m ++ [verifiable_WithPublicKeyFetcher fetcher] |}.

Definition WithDisabledCredProofCheck : MatchOption :=
  fun m => {| CredentialOptions :=
                CredentialOptions m ++ [verifiable_WithDisabledProofCheck] |}.

(** ** Collaborators *)

Class Collaborators : Type := {
  (* vp.MarshalJSON() *)
  Presentation_MarshalJSON : Presentation -> outcome bytes;
  (* json.Unmarshal(bits, &interface{}) *)
  json_Unmarshal : bytes -> outcome Value;
  (* json.Marshal(v) on a decoded tree *)
  json_Marshal : Value -> outcome bytes;
  (* json.Unmarshal(bits, &[]*InputDescriptorMapping) *)
  json_Unmarshal_mappings : bytes -> outcome (list (option InputDescriptorMapping));
  (* builder.NewEvaluable(jsonPath), then path(ctx, vp) *)
  NewEvaluable : string -> outcome (Value -> outcome Value);
  (* verifiable.ParseCredential(bits, opts...) *)
  verifiable_ParseCredential : bytes -> list CredentialOpt -> outcome Credential
}.

(** ** presexch/api.go *)

Section Presexch.
Context `{Collaborators}.

Fixpoint stringsContain (s : list string) (val : string) : bool :=
  match s with
  | [] => false
  | si :: rest => if String.eqb si val then true else stringsContain rest val
  end.

(** The inner loop of [stringsIntersect], for one [a[i]]. *)
Fixpoint stringsIntersect_inner (ai : string) (b : list string) : bool :=
  match b with
  | [] => false
  | bj :: rest => if String.eqb ai bj then true else stringsIntersect_inner ai rest
  end.

Fixpoint stringsIntersect (a b : list string) : bool :=
  match a with
  | [] => false
  | ai :: rest =>
      if stringsIntersect_inner ai b then true else stringsIntersect rest b
  end.

(** [ids[i] = input[i].ID] dereferences every element. *)
Fixpoint descriptorIDs (input : list (option InputDescriptor)) : outcome (list string) :=
  match input with
  | [] => Returned []
  | None :: _ => Panicked
  | Some d :: rest => ids ← descriptorIDs rest; Returned (ID d :: ids)
  end.

Fixpoint inputDescriptor_loop (input : list (option InputDescriptor)) (id : string)
  : outcome (option InputDescriptor) :=
  match input with
  | [] => Returned None
  | None :: _ => Panicked
  | Some d :: rest =>
      if String.eqb (ID d) id then Returned (Some d) else inputDescriptor_loop rest id
  end.

Definition inputDescriptor (p : PresentationDefinitions) (id : string)
  : outcome (option InputDescriptor) :=
  inputDescriptor_loop (InputDescriptors p) id.

Definition checkJSONLDContextType (vp : Presentation) : outcome unit :=
  if negb (stringsContain (VP_Context vp) PresentationSubmissionJSONLDContext)
  then Failed MissingJSONLDContext
  else if negb (stringsContain (VP_Type vp) PresentationSubmissionJSONLDType)
  then Failed MissingJSONLDType
  else Returned ().

Definition parseDescriptorMap (vp : Presentation)
  : outcome (list (option InputDescriptorMapping)) :=
  match asObject (VP_CustomFields vp !! submissionProperty) with
  | None => Failed MissingSubmissionProperty
  | Some submission =>
      match asArray (submission !! descriptorMapProperty) with
      | None => Failed MissingDescriptorMapProperty
      | Some descriptorMap =>
          bits ← wrap MarshalDescriptorMapFailed (json_Marshal (Array descriptorMap));
          wrap UnmarshalDescriptorMapFailed (json_Unmarshal_mappings bits)
      end
  end.

(** The [builder] argument is the fixed gval language; its [NewEvaluable]
    is the collaborator. *)
Definition selectByPath (vp : Value) (jsonPath : string) (options : MatchOptions)
  : outcome Credential :=
  path ← wrap BuildEvaluatorFailed (NewEvaluable jsonPath);
  cred ← wrap (EvaluatePathFailed jsonPath) (path vp);
  credBits ← wrap MarshalCredentialFailed (json_Marshal cred);
  wrap ParseCredentialFailed
       (verifiable_ParseCredential credBits (CredentialOptions options)).

Fixpoint evalSubmissionRequirements_loop
    (descriptorIDs : list string) (matched : gmap string Credential) : outcome unit :=
  match descriptorIDs with
  | [] => Returned ()
  | id :: rest =>
      match matched !! id with
      | None => Failed (NoCredentialProvided id)
      | Some _ => evalSubmissionRequirements_loop rest matched
      end
  end.

Definition evalSubmissionRequirements
    (p : PresentationDefinitions) (matched : gmap string Credential) : outcome unit :=
  descriptorIDs ← descriptorIDs (InputDescriptors p);
  evalSubmissionRequirements_loop descriptorIDs matched.

(** One iteration of the loop of [Match] over the descriptor map. *)
Definition Match_step (p : PresentationDefinitions) (descriptorIDs : list string)
    (typelessVP : Value) (opts : MatchOptions)
    (result : gmap string Credential) (mapping : option InputDescriptorMapping)
  : outcome (gmap string Credential) :=
  match mapping with
  | None => Panicked
  | Some mapping =>
      if negb (stringsContain descriptorIDs (Mapping_ID mapping))
      then Failed (UnknownDescriptorMapID (Mapping_ID mapping))
      else
        vc ← wrap SelectFailed (selectByPath typelessVP (Mapping_Path mapping) opts);
        inputDescriptor ← inputDescriptor p (Mapping_ID mapping);
        match inputDescriptor with
        | None => Panicked
        | Some inputDescriptor =>
            match Schema_ inputDescriptor with
            | None => Panicked
            | Some schema =>
                if negb (stringsIntersect (Context vc) (URI schema))
                then Failed (SchemaURINotInContext
                               (ID inputDescriptor) (URI schema) (Context vc))
                else Returned (<[Mapping_ID mapping := vc]> result)
            end
        end
  end.

Fixpoint Match_loop (p : PresentationDefinitions) (descriptorIDs : list string)
    (typelessVP : Value) (opts : MatchOptions)
    (descriptorMap : list (option InputDescriptorMapping))
    (result : gmap string Credential) : outcome (gmap string Credential) :=
  match descriptorMap with
  | [] => Returned result
  | mapping :: rest =>
      result' ← Match_step p descriptorIDs typelessVP opts result mapping;
      Match_loop p descriptorIDs typelessVP opts rest result'
  end.

Definition applyOptions (options : list MatchOption) : MatchOptions :=
  foldl (fun opts option => option opts) {| CredentialOptions := [] |} options.

Definition Match (p : PresentationDefinitions) (vp : Presentation)
    (options : list MatchOption) : outcome (gmap string Credential) :=
  let opts := applyOptions options in
  checkJSONLDContextType vp;;
  vpBits ← wrap MarshalVPFailed (Presentation_MarshalJSON vp);
  typelessVP ← wrap UnmarshalVPFailed (json_Unmarshal vpBits);
  descriptorIDs ← descriptorIDs (InputDescriptors p);
  descriptorMap ← wrap ParseDescriptorMapFailed (parseDescriptorMap vp);
  result ← Match_loop p descriptorIDs typelessVP opts descriptorMap ∅;
  wrap SubmissionRequirementsFailed (evalSubmissionRequirements p result);;
  Returned result.

End Presexch.

(** The message of an error value ([err.Error()]); [%+v] prints a string
    slice as its elements between brackets, separated by spaces. The format
    strings of the last two errors are outside src/: the base failure is
    rendered with the text the test file looks for, the apply failure as
    the producer's own message, which the test file looks for as well. *)
Definition sprint_strings (l : list string) : string :=
  "[" ++ String.concat " " l ++ "]".

Fixpoint Error (err : error) : string :=
  match err with
  | External msg => msg
  | MissingJSONLDContext =>
      "input verifiable presentation must have json-ld context "
        ++ PresentationSubmissionJSONLDContext
  | MissingJSONLDType =>
      "input verifiable presentation must have json-ld type "
        ++ PresentationSubmissionJSONLDType
  | MissingSubmissionProperty =>
      "missing '" ++ submissionProperty ++ "' on verifiable presentation"
  | MissingDescriptorMapProperty =>
      "missing '" ++ descriptorMapProperty ++ "' on verifiable presentation"
  | MarshalDescriptorMapFailed e => "failed to marshal descriptor map: " ++ Error e
  | UnmarshalDescriptorMapFailed e => "failed to unmarshal descriptor map: " ++ Error e
  | BuildEvaluatorFailed e => "failed to build new json path evaluator: " ++ Error e
  | EvaluatePathFailed jsonPath e =>
      "failed to evaluate json path [" ++ jsonPath ++ "]: " ++ Error e
  | MarshalCredentialFailed e => "failed to marshal credential: " ++ Error e
  | ParseCredentialFailed e => "failed to parse credential: " ++ Error e
  | NoCredentialProvided id => "no credential provided for input descriptor " ++ id
  | MarshalVPFailed e => "failed to marshal vp: " ++ Error e
  | UnmarshalVPFailed e => "failed to unmarshal vp: " ++ Error e
  | ParseDescriptorMapFailed e => "failed to parse descriptor map: " ++ Error e
  | UnknownDescriptorMapID id =>
      "an " ++ descriptorMapProperty
        ++ " ID was found that did not match the `id` property of any input descriptor: "
        ++ id
  | SelectFailed e => "failed to select vc from submission: " ++ Error e
  | SchemaURINotInContext id uri context =>
      "input descriptor id [" ++ id ++ "] requires schema uri ["
        ++ sprint_strings uri ++ "] which is not in vc context ["
        ++ sprint_strings context ++ "]"
  | SubmissionRequirementsFailed e => "failed submission requirements: " ++ Error e
  | BuildBaseCredentialFailed e => "build base verifiable credential: " ++ Error e
  | ApplyExtensionFailed e => Error e
  end.

(** ** verifiable/credential_extension_switch_test.go *)

(** What a producer hands back as [interface{}]: the dynamic types of the
    test file. *)
Record Cred1 : Type := {
  Cred1_Base : Credential;
  Cred1_Subject_ID : string;
  Cred1_Subject_CustomSubjectField : string;
  Cred1_CustomField : string
}.

Record Cred2 : Type := {
  Cred2_Base : Credential;
  Cred2_Subject_ID : string;
  Cred2_Subject_CustomSubjectField : string;
  Cred2_CustomField : string
}.

Inductive TypedObject : Type :=
  | PtrCredential (vc : Credential)
  | PtrCred1 (c1 : Cred1)
  | PtrCred2 (c2 : Cred2).

(** Modelled from the spec: the [CustomCredentialProducer] interface is
    declared outside src/; the spec gives it as the pair of operations
    [Accept(Credential) -> bool] and [Apply(Credential, bytes) ->
    (TypedObject, error)]. *)
Record CustomCredentialProducer : Type := {
  Accept : Credential -> bool;
  Apply : Credential -> bytes -> outcome TypedObject
}.

(** [json.Unmarshal(dataJSON, c)] into an existing struct. *)
Class Decoders : Type := {
  json_Unmarshal_Cred1 : bytes -> Cred1 -> outcome Cred1;
  json_Unmarshal_Cred2 : bytes -> Cred2 -> outcome Cred2
}.

Definition zeroCredential : Credential :=
  {| Context := []; Types := []; CustomFields := ∅ |}.

Fixpoint hasType (allTypes : list string) (targetType : string) : bool :=
  match allTypes with
  | [] => false
  | thatType :: rest =>
      if String.eqb thatType targetType then true else hasType rest targetType
  end.

Section Producers.
Context `{Decoders}.

Definition Cred1_Accept (vc : Credential) : bool := hasType (Types vc) "CredType1".

Definition Cred1_Apply (c1 : Cred1) (vc : Credential) (dataJSON : bytes)
  : outcome TypedObject :=
  c1 ← json_Unmarshal_Cred1 dataJSON c1;
  Returned (PtrCred1 {| Cred1_Base := vc;
                        Cred1_Subject_ID := Cred1_Subject_ID c1;
                        Cred1_Subject_CustomSubjectField :=
                          Cred1_Subject_CustomSubjectField c1;
                        Cred1_CustomField := Cred1_CustomField c1 |}).

Definition Cred2Producer_Accept (vc : Credential) : bool :=
  hasType (Types vc) "CredType2".

Definition Cred2Producer_Apply (vc : Credential) (dataJSON : bytes)
  : outcome TypedObject :=
  let c2 := {| Cred2_Base := zeroCredential; Cred2_Subject_ID := "";
               Cred2_Subject_CustomSubjectField := ""; Cred2_CustomField := "" |} in
  c2 ← json_Unmarshal_Cred2 dataJSON c2;
  Returned (PtrCred2 {| Cred2_Base := vc;
                        Cred2_Subject_ID := Cred2_Subject_ID c2;
                        Cred2_Subject_CustomSubjectField :=
                          Cred2_Subject_CustomSubjectField c2;
                        Cred2_CustomField := Cred2_CustomField c2 |}).

Definition NewCred1Producer : CustomCredentialProducer :=
  {| Accept := Cred1_Accept;
     Apply := Cred1_Apply {| Cred1_Base := zeroCredential; Cred1_Subject_ID := "";
                             Cred1_Subject_CustomSubjectField := "";
                             Cred1_CustomField := "" |} |}.

Definition NewCred2Producer : CustomCredentialProducer :=
  {| Accept := Cred2Producer_Accept; Apply := Cred2Producer_Apply |}.

End Producers.

Definition FailingCredentialProducer : CustomCredentialProducer :=
  {| Accept := fun _ => true;
     Apply := fun _ _ => Failed (External "failed to apply credential extension") |}.

(** [CreateCustomCredential] (the spec's [Resolve]) is called by the test file
    and defined outside src/. *)
Section CreateCustomCredential.
Context `{Collaborators}.

(** Modelled from the spec: the loop of [CreateCustomCredential] over the
    producers, in the caller's order (section 4.1, steps 2 and 3). The first
    producer that accepts is applied, a failing [Apply] failing the call with
    no further producer tried; with no acceptor the result is the base
    credential. *)
Fixpoint CreateCustomCredential_loop (vcBase : Credential) (vcData : bytes)
    (producers : list CustomCredentialProducer) : outcome TypedObject :=
  match producers with
  | [] => Returned (PtrCredential vcBase)
  | p :: rest =>
      if Accept p vcBase
      then wrap ApplyExtensionFailed (Apply p vcBase vcData)
      else CreateCustomCredential_loop vcBase vcData rest
  end.

(** Modelled from the spec: [CreateCustomCredential] parses the raw bytes
    into the base credential, a failure being fatal to the call (section
    4.1, step 1), then walks the producers. *)
Definition CreateCustomCredential (vcData : bytes)
    (producers : list CustomCredentialProducer) : outcome TypedObject :=
  vcBase ← wrap BuildBaseCredentialFailed (verifiable_ParseCredential vcData []);
  CreateCustomCredential_loop vcBase vcData producers.

End CreateCustomCredential.

(** ** Mock collaborators

    A parser and a path evaluator in the manner of the package's tests: the
    presentation document, the decoded descriptor map and the credential
    behind each embedded token are fixed by the test case. *)

Definition mock_select (index : nat) (vp : Value) : outcome Value :=
  match vp with
  | Object fields =>
      match fields !! "verifiableCredential" with
      | Some (Array items) =>
          match items !! index with
          | Some v => Returned v
          | None => Failed (External "index out of range")
          end
      | _ => Failed (External "unknown key verifiableCredential")
      end
  | _ => Failed (External "unsupported value type")
  end.

Definition mock_NewEvaluable (jsonPath : string) : outcome (Value -> outcome Value) :=
  if String.eqb jsonPath "$.verifiableCredential[0]" then Returned (mock_select 0)
  else if String.eqb jsonPath "$.verifiableCredential[1]" then Returned (mock_select 1)
  else Failed (External "parsing error").

Definition mock_Marshal (v : Value) : outcome bytes :=
  match v with
  | String s => Returned (String.list_byte_of_string s)
  | _ => Returned []
  end.

(** encoding/json refuses the values that are not data. *)
Definition goTypeOf (v : Value) : option string :=
  match v with
  | Other goType => Some goType
  | _ => None
  end.

Definition mock_MarshalJSON (vp : Presentation) : outcome bytes :=
  match omap (fun kv => goTypeOf kv.2) (map_to_list (VP_CustomFields vp)) with
  | goType :: _ => Failed (External ("json: unsupported type: " ++ goType))
  | [] => Returned []
  end.

Definition mockCollaborators (doc : Value)
    (mappings : list (option InputDescriptorMapping))
    (parse : string -> outcome Credential) : Collaborators :=
  {| Presentation_MarshalJSON := mock_MarshalJSON;
     json_Unmarshal := fun _ => Returned doc;
     json_Marshal := mock_Marshal;
     json_Unmarshal_mappings := fun _ => Returned mappings;
     NewEvaluable := mock_NewEvaluable;
     verifiable_ParseCredential := fun bits _ => parse (String.string_of_list_byte bits) |}.

(** Collaborators none of which may be called. *)
Definition unreachable : Collaborators :=
  {| Presentation_MarshalJSON := fun _ => Panicked;
     json_Unmarshal := fun _ => Panicked;
     json_Marshal := fun _ => Panicked;
     json_Unmarshal_mappings := fun _ => Panicked;
     NewEvaluable := fun _ => Panicked;
     verifiable_ParseCredential := fun _ _ => Panicked |}.

Module Fixture.

Definition degreeURI : string :=
  "https://example.org/examples#UniversityDegreeCredential".
Definition licenseURI : string := "https://example.org/examples#DrivingLicense".
Definition baseURI : string := "https://www.w3.org/2018/credentials/v1".

Definition degree : Credential :=
  {| Context := [baseURI; degreeURI];
     Types := ["VerifiableCredential"; "CredType1"];
     CustomFields := ∅ |}.

Definition degree' : Credential :=
  {| Context := [degreeURI];
     Types := ["VerifiableCredential"; "CredType2"];
     CustomFields := ∅ |}.

Definition license : Credential :=
  {| Context := [baseURI; licenseURI];
     Types := ["VerifiableCredential"];
     CustomFields := ∅ |}.

Definition parse (token : string) : outcome Credential :=
  if String.eqb token "degree" then Returned degree
  else if String.eqb token "degree'" then Returned degree'
  else if String.eqb token "license" then Returned license
  else Failed (External "unexpected end of JSON input").

Definition schema (uri : list string) : option Schema :=
  Some {| URI := uri; Schema_Name := ""; Schema_Purpose := "" |}.

Definition d1 : InputDescriptor :=
  {| ID := "d1"; Schema_ := schema [degreeURI]; Constraints_ := None |}.
Definition d2 : InputDescriptor :=
  {| ID := "d2"; Schema_ := schema [licenseURI]; Constraints_ := None |}.
Definition d1_noSchema : InputDescriptor :=
  {| ID := "d1"; Schema_ := None; Constraints_ := None |}.

Definition definitions (ds : list InputDescriptor) : PresentationDefinitions :=
  {| Name := "test"; Purpose := "test"; InputDescriptors := Some <$> ds |}.

Definition mapping (id path : string) : InputDescriptorMapping :=
  {| Mapping_ID := id; Mapping_Path := path |}.

Definition mappingValue (m : InputDescriptorMapping) : Value :=
  Object (<["id" := String (Mapping_ID m)]>
            (<["path" := String (Mapping_Path m)]> ∅)).

Definition customFields (ms : list InputDescriptorMapping) : gmap string Value :=
  <[submissionProperty :=
      Object (<[descriptorMapProperty := Array (mappingValue <$> ms)]> ∅)]> ∅.

Definition vp (ms : list InputDescriptorMapping) : Presentation :=
  {| VP_Context := [baseURI; PresentationSubmissionJSONLDContext];
     VP_Type := ["VerifiablePresentation"; PresentationSubmissionJSONLDType];
     VP_CustomFields := customFields ms |}.

(** The decoded presentation: the two embedded credentials are tokens. *)
Definition doc (tokens : list string) (ms : list InputDescriptorMapping) : Value :=
  Object (<["verifiableCredential" := Array (String <$> tokens)]> (customFields ms)).

Definition collaborators (tokens : list string) (ms : list InputDescriptorMapping)
  : Collaborators :=
  mockCollaborators (doc tokens ms) (Some <$> ms) parse.

Definition m1 : InputDescriptorMapping := mapping "d1" "$.verifiableCredential[0]".
Definition m1' : InputDescriptorMapping := mapping "d1" "$.verifiableCredential[1]".
Definition m2 : InputDescriptorMapping := mapping "d2" "$.verifiableCredential[1]".
Definition mX : InputDescriptorMapping := mapping "dX" "$.verifiableCredential[0]".

(** A presentation with the envelope of a submission and no submission. *)
Definition vp_noSubmission : Presentation :=
  {| VP_Context := [baseURI; PresentationSubmissionJSONLDContext];
     VP_Type := ["VerifiablePresentation"; PresentationSubmissionJSONLDType];
     VP_CustomFields := ∅ |}.

(** The same with a channel among its custom fields. *)
Definition vp_channel : Presentation :=
  {| VP_Context := [baseURI; PresentationSubmissionJSONLDContext];
     VP_Type := ["VerifiablePresentation"; PresentationSubmissionJSONLDType];
     VP_CustomFields := <["updates" := Other "chan int"]> ∅ |}.

(** A submission object without a descriptor map. *)
Definition vp_noDescriptorMap : Presentation :=
  {| VP_Context := [baseURI; PresentationSubmissionJSONLDContext];
     VP_Type := ["VerifiablePresentation"; PresentationSubmissionJSONLDType];
     VP_CustomFields := <[submissionProperty := Object ∅]> ∅ |}.

(** A presentation that is not typed as a submission. *)
Definition vp_noType : Presentation :=
  {| VP_Context := [baseURI; PresentationSubmissionJSONLDContext];
     VP_Type := ["VerifiablePresentation"];
     VP_CustomFields := customFields [m1] |}.

(** A descriptor map whose unknown entry is followed by a nil entry. *)
Definition collaborators_unknown : Collaborators :=
  mockCollaborators (doc ["degree"] [mX]) [Some mX; None] parse.

(** A one-entry result. *)
Definition matched (id : string) (vc : Credential) : gmap string Credential :=
  {[ id := vc ]}.

(** The raw bytes of a credential, and the parser alone. *)
Definition raw (token : string) : bytes := String.list_byte_of_string token.
Definition parser : Collaborators := collaborators [] [].

Definition mockDecoders : Decoders :=
  {| json_Unmarshal_Cred1 := fun _ c1 =>
       Returned {| Cred1_Base := Cred1_Base c1;
                   Cred1_Subject_ID := "did:example:ebfeb1f712ebc6f1c276e12ec21";
                   Cred1_Subject_CustomSubjectField := "custom subject 1";
                   Cred1_CustomField := "custom field 1" |};
     json_Unmarshal_Cred2 := fun _ c2 =>
       Returned {| Cred2_Base := Cred2_Base c2;
                   Cred2_Subject_ID := "did:example:ebfeb1f712ebc6f1c276e12ec21";
                   Cred2_Subject_CustomSubjectField := "custom subject 2";
                   Cred2_CustomField := "custom field 2" |} |}.

Definition cred1Producer : CustomCredentialProducer := @NewCred1Producer mockDecoders.
Definition cred2Producer : CustomCredentialProducer := @NewCred2Producer mockDecoders.

Definition cred2 : Cred2 :=
  {| Cred2_Base := degree';
     Cred2_Subject_ID := "did:example:ebfeb1f712ebc6f1c276e12ec21";
     Cred2_Subject_CustomSubjectField := "custom subject 2";
     Cred2_CustomField := "custom field 2" |}.

End Fixture.

(** ** Vocabulary of the statements *)

Section Vocabulary.
Context `{Collaborators}.

(** The steps of [Match] before its loop all went through: the envelope
    check, the round trip of the presentation through JSON, the collection
    of the descriptor ids and the extraction of the descriptor map. *)
Definition Match_reaches_loop (p : PresentationDefinitions) (vp : Presentation)
    (descriptorIDs' : list string) (typelessVP : Value)
    (descriptorMap : list (option InputDescriptorMapping)) : Prop :=
  checkJSONLDContextType vp = Returned () /\
  (exists vpBits, Presentation_MarshalJSON vp = Returned vpBits /\
                  json_Unmarshal vpBits = Returned typelessVP) /\
  descriptorIDs (InputDescriptors p) = Returned descriptorIDs' /\
  parseDescriptorMap vp = Returned descriptorMap.

(** The loop of [Match] went through the entries [before] and stands at
    the entry that follows them, with [result] accumulated so far. *)
Definition Match_processes (p : PresentationDefinitions) (vp : Presentation)
    (options : list MatchOption) (typelessVP : Value)
    (before : list (option InputDescriptorMapping)) (mapping : InputDescriptorMapping)
    (after : list (option InputDescriptorMapping)) : Prop :=
  exists descriptorIDs' result,
    Match_reaches_loop p vp descriptorIDs' typelessVP (before ++ Some mapping :: after) /\
    Match_loop p descriptorIDs' typelessVP (applyOptions options) before ∅
      = Returned result.

(** The libraries return or fail, and never panic. *)
Definition collaborators_return : Prop :=
  (forall vp, Presentation_MarshalJSON vp <> Panicked) /\
  (forall bits, json_Unmarshal bits <> Panicked) /\
  (forall v, json_Marshal v <> Panicked) /\
  (forall bits, json_Unmarshal_mappings bits <> Panicked) /\
  (forall jsonPath, NewEvaluable jsonPath <> Panicked) /\
  (forall jsonPath path vp, NewEvaluable jsonPath = Returned path -> path vp <> Panicked) /\
  (forall bits opts, verifiable_ParseCredential bits opts <> Panicked).

(** No nil pointer in the definition: every descriptor is there and has a
    schema. *)
Definition schemas_present (p : PresentationDefinitions) : Prop :=
  forall entry, entry ∈ InputDescriptors p ->
    exists d schema, entry = Some d /\ Schema_ d = Some schema.

End Vocabulary.

(** ** didcomm/packager

    The base packager that follows [presexch/api.go] in the same source
    file. An error of this package is kept as its message: [fmt.Errorf] with
    [%w] prefixes the message of the error it wraps. *)

Definition errorf (msg : string) : error := External msg.

(** [fmt.Errorf(prefix + "%w", err)] on the failure of a call. *)
Definition wrapf {A : Type} (prefix : string) (o : outcome A) : outcome A :=
  wrap (fun err => errorf (prefix ++ Error err)) o.

(** [x, err := f()] with both results kept: the error is a value. *)
Definition attempt {A : Type} (o : outcome A) : outcome (A + error) :=
  match o with
  | Returned a => Returned (inl a)
  | Failed err => Returned (inr err)
  | Panicked => Panicked
  end.

Module packager.

(** The [packer.Packer] interface, declared outside src/: the three methods
    the package calls. The encoding type of a packer is a constant. *)
Record Packer : Type := {
  EncodingType : string;
  Pack : bytes -> bytes -> list bytes -> outcome bytes;
  Unpack : bytes -> outcome bytes
}.

(** [Provider]: an interface value may be nil. *)
Record Provider : Type := {
  InboundPackers : list (option Packer);
  Provider_Packer : option Packer
}.

Record Packager : Type := {
  packer : option Packer;
  inboundPackers : gmap string Packer
}.

(** [transport.Envelope], declared outside src/: the fields the package
    reads and writes. *)
Record Envelope : Type := {
  Message : bytes;
  FromVerKey : string;
  ToVerKeys : list string
}.

Record envelopeStub : Type := { Protected : string }.
Record headerStub : Type := { headerStub_Type : string }.

Class Libraries : Type := {
  (* base58.Decode(s) *)
  base58_Decode : string -> bytes;
  (* base64.URLEncoding.DecodeString(s) *)
  base64_URLEncoding_DecodeString : string -> outcome bytes;
  (* base64.RawURLEncoding.DecodeString(s) *)
  base64_RawURLEncoding_DecodeString : string -> outcome bytes;
  (* json.Unmarshal(encMessage, &envelopeStub{}) *)
  json_Unmarshal_envelopeStub : bytes -> outcome envelopeStub;
  (* json.Unmarshal(protBytes, &headerStub{}) *)
  json_Unmarshal_headerStub : bytes -> outcome headerStub
}.

(** [pack.EncodingType()] on a nil interface panics. *)
Definition addPacker (bp : Packager) (pack : option Packer) : outcome Packager :=
  match pack with
  | None => Panicked
  | Some pack =>
      match inboundPackers bp !! EncodingType pack with
      | None =>
          Returned {| packer := packer bp;
                      inboundPackers := <[EncodingType pack := pack]> (inboundPackers bp) |}
      | Some _ => Returned bp
      end
  end.

Fixpoint New_loop (basePackager : Packager) (packers : list (option Packer))
  : outcome Packager :=
  match packers with
  | [] => Returned basePackager
  | packerType :: rest =>
      basePackager ← addPacker basePackager packerType;
      New_loop basePackager rest
  end.

Definition New (ctx : Provider) : outcome Packager :=
  basePackager ← New_loop {| packer := None; inboundPackers := ∅ |} (InboundPackers ctx);
  match Provider_Packer ctx with
  | None => Failed (errorf "need outbound packer to initialize packager")
  | Some p =>
      addPacker {| packer := Some p; inboundPackers := inboundPackers basePackager |}
                (Some p)
  end.

Section Methods.
Context `{Libraries}.

Definition PackMessage (bp : Packager) (messageEnvelope : option Envelope)
  : outcome bytes :=
  match messageEnvelope with
  | None => Failed (errorf "envelope argument is nil")
  | Some messageEnvelope =>
      let recipients := base58_Decode <$> ToVerKeys messageEnvelope in
      match packer bp with
      | None => Panicked
      | Some p =>
          wrapf "pack: "
                (Pack p (Message messageEnvelope)
                      (base58_Decode (FromVerKey messageEnvelope)) recipients)
      end
  end.

Definition getEncodingType (encMessage : bytes) : outcome string :=
  env ← wrapf "parse envelope: " (json_Unmarshal_envelopeStub encMessage);
  r1 ← attempt (base64_URLEncoding_DecodeString (Protected env));
  r2 ← attempt (base64_RawURLEncoding_DecodeString (Protected env));
  protBytes ← match r1, r2 with
              | inl protBytes1, _ => Returned protBytes1
              | inr _, inl protBytes2 => Returned protBytes2
              | inr err1, inr _ => Failed (errorf ("decode header: " ++ Error err1))
              end;
  prot ← wrapf "parse header: " (json_Unmarshal_headerStub protBytes);
  Returned (headerStub_Type prot).

Definition UnpackMessage (bp : Packager) (encMessage : bytes) : outcome Envelope :=
  encType ← wrapf "getEncodingType: " (getEncodingType encMessage);
  match inboundPackers bp !! encType with
  | None => Failed (errorf "message Type not recognized")
  | Some p =>
      bytes ← wrapf "unpack: " (Unpack p encMessage);
      Returned {| Message := bytes; FromVerKey := ""; ToVerKeys := [] |}
  end.

End Methods.

(** The packer a packager made by [New] holds for an encoding type: the
    first of the inbound packers, then the outbound one, with that type. *)
Definition firstOfType (encType : string) (packers : list Packer) : option Packer :=
  List.find (fun p => String.eqb (EncodingType p) encType) packers.

End packager.

(** ** bdd/pkg/messaging/messaging_steps.go

    The two helpers of the messaging steps. The logger is left out; the
    registrars, the messengers and the connection store are the agents'
    own. *)

Module messaging.

(** [connection.Record], declared outside src/: the fields the step reads. *)
Record Record_ : Type := {
  State : string;
  TheirLabel : string;
  MyDID : string;
  TheirDID : string
}.

(** [dispatcher.MessageService]: the step reads its name. *)
Record MessageService : Type := { MessageService_Name : string }.

Record Registrar : Type := { Register : MessageService -> outcome unit }.

(** [service.DIDCommMsgMap] is a [map[string]interface{}]. *)
Record Messenger : Type := {
  Send : gmap string Value -> string -> string -> outcome unit
}.

Inductive AgentContext : Type := AgentContext_ (handle : nat).
Inductive Lookup : Type := Lookup_ (handle : nat).

Record BDDContext : Type := {
  MessageRegistrar : gmap string Registrar;
  Messengers : gmap string Messenger;
  AgentCtx : gmap string AgentContext
}.

Class ConnectionStore : Type := {
  (* connection.NewLookup(ctx) *)
  connection_NewLookup : AgentContext -> outcome Lookup;
  (* lookup.QueryConnectionRecords() *)
  QueryConnectionRecords : Lookup -> outcome (list (option Record_))
}.

Definition registerMsgService (bddContext : BDDContext) (agentID : string)
    (msgSvc : MessageService) : outcome unit :=
  match MessageRegistrar bddContext !! agentID with
  | None => Failed (errorf ("unable to find message registrar for agent `" ++ agentID ++ "`"))
  | Some registrar =>
      wrapf ("unable to register message service '" ++ MessageService_Name msgSvc ++ "' : ")
            (Register registrar msgSvc)
  end.

(** The loop of [sendMessage] looking for the connection to the destination:
    [conn.State] dereferences every record it comes to. *)
Fixpoint sendMessage_loop (connections : list (option Record_)) (toAgentID : string)
  : outcome (option Record_) :=
  match connections with
  | [] => Returned None
  | None :: _ => Panicked
  | Some conn :: rest =>
      if String.eqb (State conn) "completed" && String.eqb (TheirLabel conn) toAgentID
      then Returned (Some conn)
      else sendMessage_loop rest toAgentID
  end.

(** A failure of the lookup or of the query is replaced by a fixed message. *)
Definition replacef {A : Type} (msg : string) (o : outcome A) : outcome A :=
  wrap (fun _ => errorf msg) o.

Section Steps.
Context `{ConnectionStore}.

Definition sendMessage (bddContext : BDDContext) (fromAgentID toAgentID : string)
    (msg : gmap string Value) : outcome unit :=
  match Messengers bddContext !! fromAgentID with
  | None => Failed (errorf ("unable to find messenger for agent `" ++ fromAgentID ++ "`"))
  | Some messenger =>
      match AgentCtx bddContext !! fromAgentID with
      | None => Failed (errorf ("unable to find context for agent `" ++ fromAgentID ++ "`"))
      | Some ctx =>
          lookup ← replacef "failed to get connection lookup" (connection_NewLookup ctx);
          connections ← replacef "failed to query connections" (QueryConnectionRecords lookup);
          target ← sendMessage_loop connections toAgentID;
          match target with
          | None => Panicked
          | Some target =>
              wrapf ("failed to send message to agent[" ++ toAgentID ++ "] : ")
                    (Send messenger msg (MyDID target) (TheirDID target))
          end
      end
  end.

End Steps.

End messaging.

(** ** aries-js-worker/test/test_steps.js

    The [Context] class of the steps. Its two [Map]s are keyed by the agent
    names; the array kept for a name is reachable through the map only, so
    the in-place [push] and [pop] are updates of the map entry. *)

Module test_steps.

Inductive JSValue : Type :=
  | undefined
  | JSString (s : string)
  | JSObject (handle : nat).

Record Context : Type := {
  agents : gmap string JSValue;
  results : gmap string (list JSValue)
}.

Definition constructor : Context := {| agents := ∅; results := ∅ |}.

Definition addAries (this : Context) (name : string) (instance : JSValue) : Context :=
  {| agents := <[name := instance]> (agents this); results := results this |}.

(** [Map.prototype.get] answers [undefined] for an absent key. *)
Definition aries (this : Context) (name : string) : JSValue :=
  default undefined (agents this !! name).

Definition pushResult (this : Context) (name : string) (result : JSValue) : Context :=
  match results this !! name with
  | None => {| agents := agents this; results := <[name := [result]]> (results this) |}
  | Some array =>
      {| agents := agents this;
         results := <[name := (array ++ [result])%list]> (results this) |}
  end.

(** [Array.prototype.pop]: the last element leaves the array; an empty array
    answers [undefined] and stays as it is. *)
Definition Array_pop (array : list JSValue) : JSValue * list JSValue :=
  match last array with
  | Some result => (result, removelast array)
  | None => (undefined, array)
  end.

Definition popResult (this : Context) (name : string) : JSValue * Context :=
  match results this !! name with
  | Some array =>
      let '(result, array) := Array_pop array in
      (result, {| agents := agents this; results := <[name := array]> (results this) |})
  | None => (undefined, this)
  end.

(** The steps of a scenario pushing, then popping, several results. *)
Definition pushResults (this : Context) (name : string) (rs : list JSValue) : Context :=
  foldl (fun this result => pushResult this name result) this rs.

Fixpoint popResults (this : Context) (name : string) (n : nat)
  : list JSValue * Context :=
  match n with
  | O => ([], this)
  | S n =>
      let '(result, this) := popResult this name in
      let '(rest, this) := popResults this name n in
      (result :: rest, this)
  end.

End test_steps.

(** ** Vocabulary of the further statements *)

(** The option of [Match] that adds a given parser option. *)
Definition optionFor (opt : CredentialOpt) : MatchOption :=
  match opt with
  | verifiable_WithJSONLDDocumentLoader l => WithJSONLDDocumentLoader l
  | verifiable_WithPublicKeyFetcher fetcher => WithPublicKeyFetcher fetcher
  | verifiable_WithDisabledProofCheck => WithDisabledCredProofCheck
  end.

(** Further test cases on the mock of [presexch]. *)
Module Scenario.

(** A second descriptor with the id of [Fixture.d1], asking for a licence. *)
Definition d1_license : InputDescriptor :=
  {| ID := "d1"; Schema_ := Fixture.schema [Fixture.licenseURI]; Constraints_ := None |}.

(** An entry for [d1] whose path does not compile. *)
Definition mNowhere : InputDescriptorMapping := Fixture.mapping "d1" "$.nowhere".

(** A descriptor map decoded from an array whose second element is null. *)
Definition collaborators_null : Collaborators :=
  mockCollaborators (Fixture.doc ["degree"] [Fixture.m1]) [Some Fixture.m1; None]
                    Fixture.parse.

(** A definition whose second descriptor is a nil pointer. *)
Definition definitions_nil : PresentationDefinitions :=
  {| Name := "test"; Purpose := "test"; InputDescriptors := [Some Fixture.d1; None] |}.

Definition degreeSchema : Schema :=
  {| URI := [Fixture.degreeURI]; Schema_Name := ""; Schema_Purpose := "" |}.

(** Both descriptors matched. *)
Definition both : gmap string Credential :=
  <["d2" := Fixture.license]> (<["d1" := Fixture.degree]> ∅).

End Scenario.

(** Test packers and libraries for [packager]: a message is its protected
    header, padded or not. *)
Module PackagerFixture.
Import packager.

Definition text (s : string) : bytes := String.list_byte_of_string s.

Definition packerOf (encType tag : string) : Packer :=
  {| EncodingType := encType;
     Pack := fun payload sender recipients =>
               Returned (text tag ++ payload ++ sender ++ concat recipients)%list;
     Unpack := fun encMessage => Returned (text tag ++ encMessage)%list |}.

Definition legacyInbound : Packer := packerOf "JWM/1.0" "inbound:".
Definition authcrypt : Packer := packerOf "authcrypt" "authcrypt:".
Definition legacyOutbound : Packer := packerOf "JWM/1.0" "outbound:".

Definition provider : Provider :=
  {| InboundPackers := [Some legacyInbound; Some authcrypt];
     Provider_Packer := Some legacyOutbound |}.

Definition provider_noOutbound : Provider :=
  {| InboundPackers := [Some legacyInbound; Some authcrypt]; Provider_Packer := None |}.

Definition provider_nilInbound : Provider :=
  {| InboundPackers := [Some legacyInbound; None]; Provider_Packer := None |}.

(** What [New provider] returns. *)
Definition packager : Packager :=
  {| packer := Some legacyOutbound;
     inboundPackers := <["authcrypt" := authcrypt]> (<["JWM/1.0" := legacyInbound]> ∅) |}.

(** The text before a final padding character. *)
Definition padded (s : string) : option string :=
  match rev (String.list_ascii_of_string s) with
  | "="%char :: rest => Some (String.string_of_list_ascii (rev rest))
  | _ => None
  end.

(** A character outside the alphabet. *)
Definition illegal (s : string) : bool :=
  existsb (Ascii.eqb "!"%char) (String.list_ascii_of_string s).

Definition libraries : Libraries :=
  {| base58_Decode := text;
     base64_URLEncoding_DecodeString := fun s =>
       if illegal s then Failed (External "illegal base64 data at input byte 0")
       else match padded s with
            | Some s' => Returned (text s')
            | None => Failed (External "illegal base64 data at input byte 8")
            end;
     base64_RawURLEncoding_DecodeString := fun s =>
       if illegal s then Failed (External "illegal base64 data at input byte 0")
       else match padded s with
            | Some _ => Failed (External "illegal base64 data at input byte 7")
            | None => Returned (text s)
            end;
     json_Unmarshal_envelopeStub := fun encMessage =>
       Returned {| Protected := String.string_of_list_byte encMessage |};
     json_Unmarshal_headerStub := fun protBytes =>
       Returned {| headerStub_Type := String.string_of_list_byte protBytes |} |}.

Definition envelope : Envelope :=
  {| Message := text "hello"; FromVerKey := "A"; ToVerKeys := ["B"; "C"] |}.

End PackagerFixture.

(** Test agents for the messaging steps: the messenger of Alice reports the
    two DIDs it was asked to send between. *)
Module MessagingFixture.
Import messaging.

Definition record (state label my their : string) : Record_ :=
  {| State := state; TheirLabel := label; MyDID := my; TheirDID := their |}.

Definition requestedBob : Record_ := record "requested" "Bob" "did:alice:0" "did:bob:0".
Definition completedCarol : Record_ := record "completed" "Carol" "did:alice:1" "did:carol:1".
Definition completedBob : Record_ := record "completed" "Bob" "did:alice:2" "did:bob:2".
Definition completedBob' : Record_ := record "completed" "Bob" "did:alice:3" "did:bob:3".

Definition records : list (option Record_) :=
  [Some requestedBob; Some completedCarol; Some completedBob; Some completedBob'; None].

Definition echo : Messenger :=
  {| Send := fun _ myDID theirDID => Failed (External (myDID ++ " -> " ++ theirDID)) |}.

Definition bddContext : BDDContext :=
  {| MessageRegistrar := ∅;
     Messengers :=
       <["Alice" := echo]> (<["Dave" := echo]> (<["Erin" := echo]>
         (<["Frank" := echo]> (<["Grace" := echo]> ∅))));
     AgentCtx :=
       <["Alice" := AgentContext_ 0]> (<["Dave" := AgentContext_ 1]>
         (<["Erin" := AgentContext_ 2]> (<["Frank" := AgentContext_ 3]> ∅))) |}.

(** The store of Alice holds [records] and the store of Erin its first two;
    the store of Dave is closed and the store of Frank cannot be queried. *)
Definition store : ConnectionStore :=
  {| connection_NewLookup := fun ctx =>
       match ctx with
       | AgentContext_ 1 => Failed (External "store is closed")
       | AgentContext_ n => Returned (Lookup_ n)
       end;
     QueryConnectionRecords := fun lookup =>
       match lookup with
       | Lookup_ 0 => Returned records
       | Lookup_ 2 => Returned [Some requestedBob; Some completedCarol]
       | Lookup_ _ => Failed (External "query failed")
       end |}.

End MessagingFixture.

(** ** The producers of the test file, with their objects on a heap

    [Cred1.Apply] decodes into its receiver and returns the receiver;
    [Cred2Producer.Apply] decodes into a new object and returns a pointer to
    it. Who shares what is told by a heap of [Cred1] and [Cred2] objects. *)

Module producers.

Definition loc : Type := nat.

Record Heap : Type := {
  cred1s : gmap loc Cred1;
  cred2s : gmap loc Cred2
}.

(** The [interface{}] a producer returns: a pointer to one of its objects. *)
Inductive Pointer : Type :=
  | ToCred1 (l : loc)
  | ToCred2 (l : loc).

(** [json.Unmarshal(dataJSON, c)]: the object as the decoder leaves it, and
    the error if there is one. *)
Class Unmarshaller : Type := {
  json_Unmarshal_into_Cred1 : bytes -> Cred1 -> Cred1 * option error;
  json_Unmarshal_into_Cred2 : bytes -> Cred2 -> Cred2 * option error
}.

Definition zeroCred1 : Cred1 :=
  {| Cred1_Base := zeroCredential; Cred1_Subject_ID := "";
     Cred1_Subject_CustomSubjectField := ""; Cred1_CustomField := "" |}.

Definition zeroCred2 : Cred2 :=
  {| Cred2_Base := zeroCredential; Cred2_Subject_ID := "";
     Cred2_Subject_CustomSubjectField := ""; Cred2_CustomField := "" |}.

Definition setBase1 (c1 : Cred1) (vc : Credential) : Cred1 :=
  {| Cred1_Base := vc; Cred1_Subject_ID := Cred1_Subject_ID c1;
     Cred1_Subject_CustomSubjectField := Cred1_Subject_CustomSubjectField c1;
     Cred1_CustomField := Cred1_CustomField c1 |}.

Definition setBase2 (c2 : Cred2) (vc : Credential) : Cred2 :=
  {| Cred2_Base := vc; Cred2_Subject_ID := Cred2_Subject_ID c2;
     Cred2_Subject_CustomSubjectField := Cred2_Subject_CustomSubjectField c2;
     Cred2_CustomField := Cred2_CustomField c2 |}.

(** [&Cred1{}] *)
Definition NewCred1Producer (h : Heap) : loc * Heap :=
  let l := fresh (dom (cred1s h)) in
  (l, {| cred1s := <[l := zeroCred1]> (cred1s h); cred2s := cred2s h |}).

Section Apply.
Context `{Unmarshaller}.

(** The receiver is a pointer the program holds: a location that is not
    allocated stands for none, and nothing is modelled for it. *)
Definition Cred1_Apply (c1 : loc) (vc : Credential) (dataJSON : bytes) (h : Heap)
  : outcome Pointer * Heap :=
  match cred1s h !! c1 with
  | None => (Panicked, h)
  | Some object =>
      let '(object, err) := json_Unmarshal_into_Cred1 dataJSON object in
      match err with
      | Some err =>
          (Failed err, {| cred1s := <[c1 := object]> (cred1s h); cred2s := cred2s h |})
      | None =>
          (Returned (ToCred1 c1),
           {| cred1s := <[c1 := setBase1 object vc]> (cred1s h); cred2s := cred2s h |})
      end
  end.

(** The object is a local variable whose address is returned on success:
    it reaches the heap only then. *)
Definition Cred2Producer_Apply (vc : Credential) (dataJSON : bytes) (h : Heap)
  : outcome Pointer * Heap :=
  let '(c2, err) := json_Unmarshal_into_Cred2 dataJSON zeroCred2 in
  match err with
  | Some err => (Failed err, h)
  | None =>
      let l := fresh (dom (cred2s h)) in
      (Returned (ToCred2 l),
       {| cred1s := cred1s h; cred2s := <[l := setBase2 c2 vc]> (cred2s h) |})
  end.

End Apply.

(** A decoder for the tests: the custom field is the text of the data. *)
Definition textDecoder : Unmarshaller :=
  {| json_Unmarshal_into_Cred1 := fun dataJSON c1 =>
       ({| Cred1_Base := Cred1_Base c1; Cred1_Subject_ID := Cred1_Subject_ID c1;
           Cred1_Subject_CustomSubjectField := Cred1_Subject_CustomSubjectField c1;
           Cred1_CustomField := String.string_of_list_byte dataJSON |}, None);
     json_Unmarshal_into_Cred2 := fun dataJSON c2 =>
       ({| Cred2_Base := Cred2_Base c2; Cred2_Subject_ID := Cred2_Subject_ID c2;
           Cred2_Subject_CustomSubjectField := Cred2_Subject_CustomSubjectField c2;
           Cred2_CustomField := String.string_of_list_byte dataJSON |}, None) |}.

Definition emptyHeap : Heap := {| cred1s := ∅; cred2s := ∅ |}.

(** A [Cred1] producer made on the empty heap and applied twice. *)
Definition heap0 : Heap := snd (NewCred1Producer emptyHeap).
Definition heap1 : Heap :=
  snd (@Cred1_Apply textDecoder 0 Fixture.degree (Fixture.raw "first") heap0).
Definition heap2 : Heap :=
  snd (@Cred1_Apply textDecoder 0 Fixture.license (Fixture.raw "second") heap1).

(** [Cred2Producer] applied twice on the empty heap. *)
Definition heap1' : Heap :=
  snd (@Cred2Producer_Apply textDecoder Fixture.degree (Fixture.raw "first") emptyHeap).
Definition heap2' : Heap :=
  snd (@Cred2Producer_Apply textDecoder Fixture.license (Fixture.raw "second") heap1').

End producers.

(** Scenario 3 of the spec and its neighbours, run on the mock. *)
Example Match_scenario_one_entry :
  @Match (Fixture.collaborators ["degree"] [Fixture.mapping "d1" "$.verifiableCredential[0]"])
         (Fixture.definitions [Fixture.d1])
         (Fixture.vp [Fixture.mapping "d1" "$.verifiableCredential[0]"])
         [WithDisabledCredProofCheck]
  = Returned {[ "d1" := Fixture.degree ]}.
Proof. vm_compute. reflexivity. Qed.

(** ** Facts about the outcome monad *)

Lemma bind_Returned {A B : Type} (o : outcome A) (k : A -> outcome B) (b : B) :
  o ≫= k = Returned b -> exists a, o = Returned a /\ k a = Returned b.
Proof. destruct o as [a| |]; simpl; intros E; try discriminate. by exists a. Qed.

Lemma wrap_Returned {A : Type} (w : error -> error) (o : outcome A) (a : A) :
  wrap w o = Returned a -> o = Returned a.
Proof. destruct o; simpl; congruence. Qed.

Lemma bind_not_Panicked {A B : Type} (o : outcome A) (k : A -> outcome B) :
  o <> Panicked -> (forall a, o = Returned a -> k a <> Panicked) -> o ≫= k <> Panicked.
Proof. destruct o as [a| |]; simpl; intros Ho Hk; [by apply Hk | done | done]. Qed.

Lemma wrap_not_Panicked {A : Type} (w : error -> error) (o : outcome A) :
  o <> Panicked -> wrap w o <> Panicked.
Proof. by destruct o. Qed.

(** Case analysis on a successful sequence of calls. *)
Ltac returned H :=
  repeat match type of H with
  | _ ≫= _ = Returned _ =>
      let a := fresh "a" in
      let E := fresh "E" in
      apply bind_Returned in H as (a & E & H);
      try apply wrap_Returned in E
  end.

(** ** Facts about the string helpers *)

Lemma stringsContain_true (s : list string) (val : string) :
  stringsContain s val = true <-> val ∈ s.
Proof.
  induction s as [|si rest IH]; simpl.
  - split; [discriminate | by intros ?%elem_of_nil].
  - destruct (String.eqb_spec si val) as [->|Hne].
    + split; [intros _; left | done].
    + rewrite IH. split; [by right | by intros [?|?]%elem_of_cons].
Qed.

Lemma stringsContain_false (s : list string) (val : string) :
  stringsContain s val = false <-> val ∉ s.
Proof.
  rewrite <- stringsContain_true. destruct (stringsContain s val); split; congruence.
Qed.

Lemma stringsIntersect_inner_true (ai : string) (b : list string) :
  stringsIntersect_inner ai b = true <-> ai ∈ b.
Proof.
  induction b as [|bj rest IH]; simpl.
  - split; [discriminate | by intros ?%elem_of_nil].
  - destruct (String.eqb_spec ai bj) as [->|Hne].
    + split; [intros _; left | done].
    + rewrite IH. split; [by right | by intros [?|?]%elem_of_cons].
Qed.

Lemma stringsIntersect_true (a b : list string) :
  stringsIntersect a b = true <-> exists x, x ∈ a /\ x ∈ b.
Proof.
  induction a as [|ai rest IH]; simpl.
  - split; [discriminate | by intros (x & ?%elem_of_nil & _)].
  - destruct (stringsIntersect_inner ai b) eqn:E.
    + apply stringsIntersect_inner_true in E.
      split; [intros _; exists ai; split; [left | done] | done].
    + rewrite IH. split.
      * intros (x & Hx & Hb). exists x. split; [by right | done].
      * intros (x & [->|Hx]%elem_of_cons & Hb).
        -- apply stringsIntersect_inner_true in Hb. congruence.
        -- by exists x.
Qed.

Lemma stringsIntersect_false (a b : list string) :
  stringsIntersect a b = false <-> forall x, x ∈ a -> x ∉ b.
Proof.
  split.
  - intros E x Ha Hb.
    assert (stringsIntersect a b = true) by (apply stringsIntersect_true; eauto).
    congruence.
  - intros Hdisj. destruct (stringsIntersect a b) eqn:E; [|done].
    apply stringsIntersect_true in E as (x & Ha & Hb). by destruct (Hdisj x Ha).
Qed.

(** ** Facts about the descriptor list *)

Lemma descriptorIDs_Returned (input : list (option InputDescriptor)) (ids : list string) :
  descriptorIDs input = Returned ids ->
  forall id, id ∈ ids <-> exists d, Some d ∈ input /\ ID d = id.
Proof.
  revert ids. induction input as [|[d|] rest IH]; simpl; intros ids E id.
  - injection E as <-. split; [by intros ?%elem_of_nil | by intros (? & ?%elem_of_nil & _)].
  - returned E. injection E as <-. specialize (IH _ E0 id).
    rewrite elem_of_cons, IH. split.
    + intros [->|(d' & Hd' & <-)]; [exists d; split; [left | done] |].
      exists d'. split; [by right | done].
    + intros (d' & [[= <-]|Hd']%elem_of_cons & <-); [by left |]. right. by exists d'.
  - discriminate.
Qed.

Lemma inputDescriptor_loop_Some (input : list (option InputDescriptor))
    (id : string) (d : InputDescriptor) :
  inputDescriptor_loop input id = Returned (Some d) -> Some d ∈ input /\ ID d = id.
Proof.
  induction input as [|[d'|] rest IH]; simpl; try discriminate.
  destruct (String.eqb_spec (ID d') id) as [<-|Hne].
  - intros [= <-]. split; [left | done].
  - intros [Hin ?]%IH. split; [by right | done].
Qed.

(** After [descriptorIDs] went through, a known id is found by
    [inputDescriptor]. *)
Lemma inputDescriptor_loop_found (input : list (option InputDescriptor))
    (ids : list string) (id : string) :
  descriptorIDs input = Returned ids -> id ∈ ids ->
  exists d, inputDescriptor_loop input id = Returned (Some d).
Proof.
  revert ids. induction input as [|[d'|] rest IH]; simpl; intros ids E Hin.
  - injection E as <-. by apply elem_of_nil in Hin.
  - returned E. injection E as <-.
    destruct (String.eqb_spec (ID d') id) as [<-|Hne]; [by eexists |].
    apply elem_of_cons in Hin as [->|Hin]; [done |]. by eapply IH.
  - discriminate.
Qed.

(** ** Facts about the pipeline of [Match] *)

Section MatchFacts.
Context `{Collaborators}.
Implicit Types (p : PresentationDefinitions) (vp : Presentation).
Implicit Types (ids : list string) (typelessVP : Value) (opts : MatchOptions).
Implicit Types (result : gmap string Credential).
Implicit Types (descriptorMap : list (option InputDescriptorMapping)).

Lemma Match_loop_app p ids typelessVP opts descriptorMap descriptorMap' result :
  Match_loop p ids typelessVP opts (descriptorMap ++ descriptorMap') result
  = Match_loop p ids typelessVP opts descriptorMap result
      ≫= Match_loop p ids typelessVP opts descriptorMap'.
Proof.
  revert result. induction descriptorMap as [|mapping rest IH]; intros result; [done |].
  simpl. destruct (Match_step p ids typelessVP opts result mapping); simpl; auto.
Qed.

Lemma Match_from_loop p vp options ids typelessVP descriptorMap :
  Match_reaches_loop p vp ids typelessVP descriptorMap ->
  Match p vp options
  = (result ← Match_loop p ids typelessVP (applyOptions options) descriptorMap ∅;
     wrap SubmissionRequirementsFailed (evalSubmissionRequirements p result);;
     Returned result).
Proof.
  intros (Henv & (vpBits & Hbits & Htree) & Hids & Hmap).
  unfold Match. rewrite Henv, Hbits. simpl. rewrite Htree. simpl.
  rewrite Hids. simpl. rewrite Hmap. reflexivity.
Qed.

Lemma Match_Returned p vp options result :
  Match p vp options = Returned result ->
  exists ids typelessVP descriptorMap,
    Match_reaches_loop p vp ids typelessVP descriptorMap /\
    Match_loop p ids typelessVP (applyOptions options) descriptorMap ∅ = Returned result /\
    evalSubmissionRequirements p result = Returned ().
Proof.
  unfold Match. intros E.
  apply bind_Returned in E as ([] & Henv & E).
  apply bind_Returned in E as (vpBits & Hbits%wrap_Returned & E).
  apply bind_Returned in E as (typelessVP & Htree%wrap_Returned & E).
  apply bind_Returned in E as (ids & Hids & E).
  apply bind_Returned in E as (descriptorMap & Hmap%wrap_Returned & E).
  apply bind_Returned in E as (result' & Hloop & E).
  apply bind_Returned in E as ([] & Hreq%wrap_Returned & E).
  injection E as ->.
  exists ids, typelessVP, descriptorMap. repeat split; eauto.
Qed.

Lemma Match_step_Returned p ids typelessVP opts result mapping result' :
  Match_step p ids typelessVP opts result mapping = Returned result' ->
  exists m vc d schema,
    mapping = Some m /\
    Mapping_ID m ∈ ids /\
    selectByPath typelessVP (Mapping_Path m) opts = Returned vc /\
    inputDescriptor p (Mapping_ID m) = Returned (Some d) /\
    Schema_ d = Some schema /\
    stringsIntersect (Context vc) (URI schema) = true /\
    result' = <[Mapping_ID m := vc]> result.
Proof.
  destruct mapping as [m|]; simpl; [|discriminate].
  destruct (stringsContain ids (Mapping_ID m)) eqn:Hid; simpl; [|discriminate].
  intros E. returned E. destruct a0 as [d|]; [|discriminate].
  destruct (Schema_ d) as [schema|] eqn:Hschema; [|discriminate].
  destruct (stringsIntersect (Context a) (URI schema)) eqn:Hmeet; simpl in E;
    [|discriminate].
  injection E as <-. exists m, a, d, schema.
  repeat split; auto. by apply stringsContain_true.
Qed.

(** Every entry of a descriptor map the loop went through passed its step. *)
Lemma Match_loop_Returned p ids typelessVP opts descriptorMap result result' :
  Match_loop p ids typelessVP opts descriptorMap result = Returned result' ->
  forall mapping, mapping ∈ descriptorMap ->
    exists r r', Match_step p ids typelessVP opts r mapping = Returned r'.
Proof.
  revert result. induction descriptorMap as [|m rest IH]; simpl; intros result E mapping Hin.
  - by apply elem_of_nil in Hin.
  - returned E. apply elem_of_cons in Hin as [->|Hin]; eauto.
Qed.

(** The keys of the result are ids of input descriptors. *)
Lemma Match_loop_dom p ids typelessVP opts descriptorMap result result' :
  Match_loop p ids typelessVP opts descriptorMap result = Returned result' ->
  forall id, id ∈ dom result' -> id ∈ dom result \/ id ∈ ids.
Proof.
  revert result. induction descriptorMap as [|m rest IH]; simpl; intros result E id Hin.
  - injection E as ->. by left.
  - returned E. destruct (IH _ E _ Hin) as [Hdom|?]; [|by right].
    apply Match_step_Returned in E0 as (m' & vc & d & s & -> & Hid & _ & _ & _ & _ & ->).
    rewrite dom_insert_L in Hdom. apply elem_of_union in Hdom as [->%elem_of_singleton|?];
      [by right | by left].
Qed.

(** Entries with other ids leave a key alone. *)
Lemma Match_loop_lookup_other p ids typelessVP opts descriptorMap result result' id :
  Match_loop p ids typelessVP opts descriptorMap result = Returned result' ->
  (forall m, Some m ∈ descriptorMap -> Mapping_ID m <> id) ->
  result' !! id = result !! id.
Proof.
  revert result. induction descriptorMap as [|m rest IH]; simpl; intros result E Hother.
  - by injection E as ->.
  - returned E. rewrite (IH _ E) by (intros m' ?; apply Hother; by right).
    apply Match_step_Returned in E0 as (m' & vc & d & s & -> & _ & _ & _ & _ & _ & ->).
    apply lookup_insert_ne, Hother. left.
Qed.

Lemma evalSubmissionRequirements_loop_Returned ids result :
  evalSubmissionRequirements_loop ids result = Returned () ->
  forall id, id ∈ ids -> is_Some (result !! id).
Proof.
  induction ids as [|id' rest IH]; simpl; intros E id Hin.
  - by apply elem_of_nil in Hin.
  - destruct (result !! id') as [vc|] eqn:Hvc; [|discriminate].
    apply elem_of_cons in Hin as [->|Hin]; [by rewrite Hvc | auto].
Qed.

Lemma evalSubmissionRequirements_loop_first_missing covered id rest result :
  (forall id', id' ∈ covered -> is_Some (result !! id')) ->
  result !! id = None ->
  evalSubmissionRequirements_loop (covered ++ id :: rest)%list result
  = Failed (NoCredentialProvided id).
Proof.
  intros Hcov Hmiss. induction covered as [|id' covered IH]; simpl.
  - by rewrite Hmiss.
  - destruct (Hcov id') as [vc ->]; [left |]. apply IH. intros ??. apply Hcov. by right.
Qed.

End MatchFacts.

Section MatchAtEntry.
Context `{Collaborators}.

(** What [Match] returns once its loop stands at an entry. *)
Lemma Match_at_entry p vp options typelessVP before mapping after :
  Match_processes p vp options typelessVP before mapping after ->
  exists ids result,
    descriptorIDs (InputDescriptors p) = Returned ids /\
    Match p vp options
    = (result' ← Match_step p ids typelessVP (applyOptions options) result (Some mapping);
       result'' ← Match_loop p ids typelessVP (applyOptions options) after result';
       wrap SubmissionRequirementsFailed (evalSubmissionRequirements p result'');;
       Returned result'').
Proof.
  intros (ids & result & Hreach & Hbefore). exists ids, result.
  split; [apply Hreach |].
  rewrite (Match_from_loop _ _ options _ _ _ Hreach), Match_loop_app, Hbefore.
  cbn [mbind outcome_bind Match_loop].
  by destruct (Match_step p ids typelessVP (applyOptions options) result (Some mapping)).
Qed.

Lemma known_descriptor_id p ids id d :
  descriptorIDs (InputDescriptors p) = Returned ids ->
  inputDescriptor p id = Returned (Some d) ->
  stringsContain ids id = true.
Proof.
  intros Hids [Hin Hid]%inputDescriptor_loop_Some.
  apply stringsContain_true, (descriptorIDs_Returned _ _ Hids). eauto.
Qed.

End MatchAtEntry.

(** ** Where [Match] can panic

    The nil pointers are the only source of panics: with every descriptor
    and every schema present, and no nil entry in the decoded descriptor
    map, [Match] returns a result or an error. *)

Section MatchTotal.
Context `{Collaborators}.

Lemma descriptorIDs_total (input : list (option InputDescriptor)) :
  (forall entry, entry ∈ input -> exists d, entry = Some d) ->
  exists ids, descriptorIDs input = Returned ids.
Proof.
  induction input as [|entry rest IH]; intros Hall; [by eexists |].
  destruct (Hall entry) as (d & ->); [left |].
  destruct IH as (ids & Hids); [intros ??; apply Hall; by right |].
  exists (ID d :: ids). simpl. by rewrite Hids.
Qed.

Lemma evalSubmissionRequirements_loop_not_Panicked ids (result : gmap string Credential) :
  evalSubmissionRequirements_loop ids result <> Panicked.
Proof. induction ids as [|id rest IH]; simpl; [done |]. by destruct (result !! id). Qed.

Lemma selectByPath_not_Panicked typelessVP jsonPath opts :
  collaborators_return -> selectByPath typelessVP jsonPath opts <> Panicked.
Proof.
  intros (_ & _ & Hmarshal & _ & Hnew & Hpath & Hparse). unfold selectByPath.
  apply bind_not_Panicked; [by apply wrap_not_Panicked |].
  intros path Hp%wrap_Returned.
  apply bind_not_Panicked; [apply wrap_not_Panicked; by eapply Hpath |].
  intros cred _.
  apply bind_not_Panicked; [by apply wrap_not_Panicked |].
  intros credBits _. by apply wrap_not_Panicked.
Qed.

Lemma parseDescriptorMap_not_Panicked vp :
  collaborators_return -> parseDescriptorMap vp <> Panicked.
Proof.
  intros (_ & _ & Hmarshal & Hmappings & _). unfold parseDescriptorMap.
  destruct (asObject _) as [submission|]; [|done].
  destruct (asArray _) as [descriptorMap|]; [|done].
  apply bind_not_Panicked; [by apply wrap_not_Panicked |].
  intros bits _. by apply wrap_not_Panicked.
Qed.

Lemma Match_step_not_Panicked p ids typelessVP opts result mapping :
  collaborators_return -> schemas_present p ->
  descriptorIDs (InputDescriptors p) = Returned ids ->
  Match_step p ids typelessVP opts result (Some mapping) <> Panicked.
Proof.
  intros Hcollab Hschemas Hids. simpl.
  destruct (stringsContain ids (Mapping_ID mapping)) eqn:Hid; [|done]. simpl.
  apply stringsContain_true in Hid.
  apply bind_not_Panicked; [by apply wrap_not_Panicked, selectByPath_not_Panicked |].
  intros vc _.
  destruct (inputDescriptor_loop_found _ _ _ Hids Hid) as (d & Hd).
  unfold inputDescriptor. rewrite Hd. simpl.
  apply inputDescriptor_loop_Some in Hd as [Hin _].
  destruct (Hschemas _ Hin) as (d' & schema & [= <-] & ->).
  by destruct (stringsIntersect _ _).
Qed.

Lemma Match_loop_not_Panicked p ids typelessVP opts descriptorMap result :
  collaborators_return -> schemas_present p ->
  descriptorIDs (InputDescriptors p) = Returned ids ->
  None ∉ descriptorMap ->
  Match_loop p ids typelessVP opts descriptorMap result <> Panicked.
Proof.
  intros Hcollab Hschemas Hids. revert result.
  induction descriptorMap as [|[mapping|] rest IH]; intros result Hnil; [done | |].
  - cbn [Match_loop]. apply bind_not_Panicked; [by apply Match_step_not_Panicked |].
    intros result' _. apply IH. intros ?. apply Hnil. by right.
  - destruct Hnil. left.
Qed.

(** X9. With every descriptor and every schema of the definition present,
    no nil entry in the decoded descriptor map and libraries that do not
    panic, [Match] does not panic: it returns a result or an error. *)
Lemma Match_returns_or_fails p vp options :
  collaborators_return -> schemas_present p ->
  (forall descriptorMap, parseDescriptorMap vp = Returned descriptorMap ->
                         None ∉ descriptorMap) ->
  Match p vp options <> Panicked.
Proof.
  intros Hcollab Hschemas Hnil.
  destruct (descriptorIDs_total (InputDescriptors p)) as (ids & Hids).
  { intros entry (d & _ & -> & _)%Hschemas. by eexists. }
  pose proof Hcollab as (Hvp & Htree & _).
  unfold Match.
  apply bind_not_Panicked.
  { unfold checkJSONLDContextType. by repeat destruct (negb _). }
  intros _ _. apply bind_not_Panicked; [by apply wrap_not_Panicked |].
  intros vpBits _. apply bind_not_Panicked; [by apply wrap_not_Panicked |].
  intros typelessVP _. rewrite Hids. cbn [mbind outcome_bind].
  apply bind_not_Panicked; [by apply wrap_not_Panicked, parseDescriptorMap_not_Panicked |].
  intros descriptorMap Hmap%wrap_Returned.
  apply bind_not_Panicked; [apply Match_loop_not_Panicked; auto |].
  intros result _. apply bind_not_Panicked; [|done].
  apply wrap_not_Panicked. unfold evalSubmissionRequirements. rewrite Hids.
  apply evalSubmissionRequirements_loop_not_Panicked.
Qed.

End MatchTotal.

(** ** The claims about [Match] *)

Section MatchClaims.
Context `{Collaborators}.

(** C1. [Match] returns a result only if every input descriptor id of the
    definition is a key of it; and when, after the whole descriptor map was
    processed, some descriptor id has no entry, [Match] fails with the
    unsatisfied-descriptor error ("no credential provided for input
    descriptor") naming the first such id in descriptor order. *)
Theorem Match_coverage (p : PresentationDefinitions) (vp : Presentation)
    (options : list MatchOption) :
  (forall result,
      Match p vp options = Returned result ->
      forall d, Some d ∈ InputDescriptors p -> is_Some (result !! ID d))
  /\
  (forall ids typelessVP descriptorMap result covered id rest,
      Match_reaches_loop p vp ids typelessVP descriptorMap ->
      Match_loop p ids typelessVP (applyOptions options) descriptorMap ∅
        = Returned result ->
      ids = (covered ++ id :: rest)%list ->
      (forall id', id' ∈ covered -> is_Some (result !! id')) ->
      result !! id = None ->
      Match p vp options
      = Failed (SubmissionRequirementsFailed (NoCredentialProvided id))).
Proof.
  split.
  - intros result (ids & typelessVP & descriptorMap & Hreach & _ & Hreq)%Match_Returned
           d Hd.
    unfold evalSubmissionRequirements in Hreq.
    apply bind_Returned in Hreq as (ids' & Hids & Hreq).
    eapply evalSubmissionRequirements_loop_Returned; [exact Hreq |].
    apply (descriptorIDs_Returned _ _ Hids). eauto.
  - intros ids typelessVP descriptorMap result covered id rest Hreach Hloop -> Hcov Hmiss.
    rewrite (Match_from_loop _ _ options _ _ _ Hreach), Hloop. simpl.
    unfold evalSubmissionRequirements.
    destruct Hreach as (_ & _ & -> & _). simpl.
    by rewrite evalSubmissionRequirements_loop_first_missing.
Qed.

(** C10. The keys of a result returned by [Match] are exactly the ids of
    the definition's input descriptors. *)
Theorem Match_keys_exact (p : PresentationDefinitions) (vp : Presentation)
    (options : list MatchOption) (result : gmap string Credential) :
  Match p vp options = Returned result ->
  (exists ids, descriptorIDs (InputDescriptors p) = Returned ids /\
               dom result = list_to_set ids) /\
  (forall id, id ∈ dom result <-> exists d, Some d ∈ InputDescriptors p /\ ID d = id).
Proof.
  intros (ids & typelessVP & descriptorMap & Hreach & Hloop & Hreq)%Match_Returned.
  pose proof Hreach as (_ & _ & Hids & _).
  unfold evalSubmissionRequirements in Hreq. rewrite Hids in Hreq. simpl in Hreq.
  assert (Hkeys : forall id, id ∈ dom result <-> id ∈ ids).
  { intros id. split.
    - intros Hin. destruct (Match_loop_dom _ _ _ _ _ _ _ Hloop id Hin) as [Hempty|?];
        [|done].
      rewrite dom_empty_L in Hempty. by apply not_elem_of_empty in Hempty.
    - intros Hin. apply elem_of_dom. by eapply evalSubmissionRequirements_loop_Returned. }
  split.
  - exists ids. split; [done |]. apply set_eq. intros id.
    by rewrite Hkeys, elem_of_list_to_set.
  - intros id. rewrite Hkeys. by apply descriptorIDs_Returned.
Qed.

(** C4. When the loop of [Match] comes to a descriptor-map entry whose id
    is the id of no input descriptor of the definition, [Match] fails with
    the unknown-id error naming that id, whatever entries follow. *)
Theorem Match_unknown_descriptor_id (p : PresentationDefinitions) (vp : Presentation)
    (options : list MatchOption) (typelessVP : Value)
    (before after : list (option InputDescriptorMapping))
    (mapping : InputDescriptorMapping) :
  Match_processes p vp options typelessVP before mapping after ->
  (forall d, Some d ∈ InputDescriptors p -> ID d <> Mapping_ID mapping) ->
  Match p vp options = Failed (UnknownDescriptorMapID (Mapping_ID mapping)).
Proof.
  intros (ids & result & Hids & ->)%Match_at_entry Hunknown.
  assert (stringsContain ids (Mapping_ID mapping) = false) as Hid.
  { apply stringsContain_false. intros (d & Hd & E)%(descriptorIDs_Returned _ _ Hids).
    by apply (Hunknown d). }
  simpl. by rewrite Hid.
Qed.

(** C2. Every descriptor mapping of a submission that [Match] accepts
    selects a credential whose context shares an element with the schema
    URIs of the input descriptor found for the mapping's id; and when the
    loop of [Match] comes to an entry whose credential shares none, [Match]
    fails with the schema error carrying the descriptor id, the required
    URIs and the credential's context. *)
Theorem Match_schema_gate (p : PresentationDefinitions) (vp : Presentation)
    (options : list MatchOption) (typelessVP : Value) :
  (forall ids descriptorMap result,
      Match_reaches_loop p vp ids typelessVP descriptorMap ->
      Match p vp options = Returned result ->
      forall mapping, Some mapping ∈ descriptorMap ->
        exists vc d schema,
          selectByPath typelessVP (Mapping_Path mapping) (applyOptions options)
            = Returned vc /\
          inputDescriptor p (Mapping_ID mapping) = Returned (Some d) /\
          Schema_ d = Some schema /\
          exists uri, uri ∈ Context vc /\ uri ∈ URI schema)
  /\
  (forall before mapping after vc d schema,
      Match_processes p vp options typelessVP before mapping after ->
      selectByPath typelessVP (Mapping_Path mapping) (applyOptions options)
        = Returned vc ->
      inputDescriptor p (Mapping_ID mapping) = Returned (Some d) ->
      Schema_ d = Some schema ->
      (forall uri, uri ∈ Context vc -> uri ∉ URI schema) ->
      Match p vp options
      = Failed (SchemaURINotInContext (ID d) (URI schema) (Context vc))).
Proof.
  split.
  - intros ids descriptorMap result Hreach E mapping Hin.
    rewrite (Match_from_loop _ _ options _ _ _ Hreach) in E.
    apply bind_Returned in E as (result' & Hloop & _).
    destruct (Match_loop_Returned _ _ _ _ _ _ _ Hloop _ Hin) as (r & r' & Hstep).
    apply Match_step_Returned in Hstep
      as (m & vc & d & schema & [= <-] & _ & Hsel & Hd & Hschema & Hmeet & _).
    exists vc, d, schema. repeat split; auto. by apply stringsIntersect_true.
  - intros before mapping after vc d schema Hproc Hsel Hd Hschema Hdisj.
    apply Match_at_entry in Hproc as (ids & result & Hids & ->).
    cbn [Match_step]. rewrite (known_descriptor_id _ _ _ _ Hids Hd), Hsel.
    cbn [negb wrap mbind outcome_bind]. rewrite Hd. cbn [mbind outcome_bind].
    rewrite Hschema. apply stringsIntersect_false in Hdisj. by rewrite Hdisj.
Qed.

(** C6. When two entries of the descriptor map carry the same id, the
    second being the last entry with that id, and [Match] returns a result,
    both entries resolved to a credential and the result maps the id to
    the credential of the second: the later entry replaced the earlier one
    without any error. *)
Theorem Match_last_mapping_wins (p : PresentationDefinitions) (vp : Presentation)
    (options : list MatchOption) (ids : list string) (typelessVP : Value)
    (before between after : list (option InputDescriptorMapping))
    (earlier later : InputDescriptorMapping) (result : gmap string Credential) :
  Match_reaches_loop p vp ids typelessVP
    (before ++ Some earlier :: between ++ Some later :: after) ->
  Mapping_ID earlier = Mapping_ID later ->
  (forall m, Some m ∈ after -> Mapping_ID m <> Mapping_ID later) ->
  Match p vp options = Returned result ->
  exists vc vc',
    selectByPath typelessVP (Mapping_Path earlier) (applyOptions options)
      = Returned vc /\
    selectByPath typelessVP (Mapping_Path later) (applyOptions options)
      = Returned vc' /\
    result !! Mapping_ID earlier = Some vc'.
Proof.
  intros Hreach Hsame Hlast E.
  rewrite (Match_from_loop _ _ options _ _ _ Hreach) in E.
  apply bind_Returned in E as (result' & Hloop & E).
  apply bind_Returned in E as (? & _ & [= ->]).
  rewrite Match_loop_app in Hloop.
  apply bind_Returned in Hloop as (r0 & _ & Hloop).
  cbn [Match_loop] in Hloop.
  apply bind_Returned in Hloop as (r1 & Hearlier & Hloop).
  rewrite Match_loop_app in Hloop.
  apply bind_Returned in Hloop as (r2 & _ & Hloop).
  cbn [Match_loop] in Hloop.
  apply bind_Returned in Hloop as (r3 & Hlater & Hloop).
  apply Match_step_Returned in Hearlier
    as (m & vc & _ & _ & [= <-] & _ & Hsel & _).
  apply Match_step_Returned in Hlater
    as (m' & vc' & _ & _ & [= <-] & _ & Hsel' & _ & _ & _ & ->).
  exists vc, vc'. repeat split; auto.
  rewrite Hsame, (Match_loop_lookup_other _ _ _ _ _ _ _ _ Hloop Hlast).
  apply lookup_insert_eq.
Qed.

(** C9. When the loop of [Match] comes to an entry whose path selects a
    credential that parses, and the input descriptor found for the entry's
    id has no schema, [Match] panics on the nil schema: it returns neither
    a result nor an error. *)
Theorem Match_nil_schema_panics (p : PresentationDefinitions) (vp : Presentation)
    (options : list MatchOption) (typelessVP : Value)
    (before after : list (option InputDescriptorMapping))
    (mapping : InputDescriptorMapping) (vc : Credential) (d : InputDescriptor) :
  Match_processes p vp options typelessVP before mapping after ->
  selectByPath typelessVP (Mapping_Path mapping) (applyOptions options) = Returned vc ->
  inputDescriptor p (Mapping_ID mapping) = Returned (Some d) ->
  Schema_ d = None ->
  Match p vp options = Panicked.
Proof.
  intros (ids & result & Hids & ->)%Match_at_entry Hsel Hd Hschema.
  cbn [Match_step]. rewrite (known_descriptor_id _ _ _ _ Hids Hd), Hsel.
  cbn [negb wrap mbind outcome_bind]. rewrite Hd. cbn [mbind outcome_bind].
  by rewrite Hschema.
Qed.

(** C3. A presentation whose context lacks the presentation-submission
    context, or whose type lacks the presentation-submission type, makes
    [Match] fail with the corresponding envelope error, whatever the
    definition, the options and the collaborators are: nothing else is
    looked at. *)
Theorem Match_envelope_check (p : PresentationDefinitions) (vp : Presentation)
    (options : list MatchOption) :
  PresentationSubmissionJSONLDContext ∉ VP_Context vp \/
  PresentationSubmissionJSONLDType ∉ VP_Type vp ->
  Match p vp options
  = Failed (if stringsContain (VP_Context vp) PresentationSubmissionJSONLDContext
            then MissingJSONLDType else MissingJSONLDContext).
Proof.
  intros Hlacks. unfold Match, checkJSONLDContextType.
  destruct (stringsContain (VP_Context vp) _) eqn:Hctx; [|done].
  destruct Hlacks as [Hlacks|Hlacks%stringsContain_false].
  - by apply stringsContain_true in Hctx.
  - by rewrite Hlacks.
Qed.

(** C5, amended. When the presentation passes the envelope check, its
    round trip through JSON succeeds and the descriptor ids are collected,
    [Match] fails with the descriptor-map parse error if the custom fields
    hold no object under [presentation_submission], or if that object holds
    no array under [descriptor_map]. *)
Theorem Match_malformed_submission (p : PresentationDefinitions) (vp : Presentation)
    (options : list MatchOption) (vpBits : bytes) (typelessVP : Value)
    (ids : list string) :
  checkJSONLDContextType vp = Returned () ->
  Presentation_MarshalJSON vp = Returned vpBits ->
  json_Unmarshal vpBits = Returned typelessVP ->
  descriptorIDs (InputDescriptors p) = Returned ids ->
  (asObject (VP_CustomFields vp !! submissionProperty) = None ->
   Match p vp options = Failed (ParseDescriptorMapFailed MissingSubmissionProperty))
  /\
  (forall submission,
      asObject (VP_CustomFields vp !! submissionProperty) = Some submission ->
      asArray (submission !! descriptorMapProperty) = None ->
      Match p vp options = Failed (ParseDescriptorMapFailed MissingDescriptorMapProperty)).
Proof.
  intros Henv Hbits Htree Hids.
  unfold Match. rewrite Henv. cbn [mbind outcome_bind]. rewrite Hbits.
  cbn [wrap mbind outcome_bind]. rewrite Htree. cbn [wrap mbind outcome_bind].
  rewrite Hids. cbn [mbind outcome_bind]. unfold parseDescriptorMap.
  split.
  - by intros ->.
  - by intros submission -> ->.
Qed.

End MatchClaims.

(** ** The claims about [CreateCustomCredential] *)

Section ExtensionClaims.
Context `{Collaborators}.

Lemma CreateCustomCredential_loop_skip vcBase vcData before producers :
  (forall q, q ∈ before -> Accept q vcBase = false) ->
  CreateCustomCredential_loop vcBase vcData (before ++ producers)
  = CreateCustomCredential_loop vcBase vcData producers.
Proof.
  intros Hreject. induction before as [|q before IH]; [done |].
  simpl. rewrite (Hreject q) by left. apply IH. intros ??. apply Hreject. by right.
Qed.

(** C7. Once the base credential is parsed, the producers before the first
    acceptor being those that reject it, [CreateCustomCredential] returns
    what the first acceptor's [Apply] returns and fails with the
    apply error when that [Apply] fails, whatever producers follow it. *)
Theorem CreateCustomCredential_first_accept_wins (vcData : bytes) (vcBase : Credential)
    (before after : list CustomCredentialProducer) (p : CustomCredentialProducer) :
  verifiable_ParseCredential vcData [] = Returned vcBase ->
  (forall q, q ∈ before -> Accept q vcBase = false) ->
  Accept p vcBase = true ->
  CreateCustomCredential vcData (before ++ p :: after)
    = wrap ApplyExtensionFailed (Apply p vcBase vcData) /\
  (forall obj, Apply p vcBase vcData = Returned obj ->
               CreateCustomCredential vcData (before ++ p :: after) = Returned obj) /\
  (forall err, Apply p vcBase vcData = Failed err ->
               CreateCustomCredential vcData (before ++ p :: after)
               = Failed (ApplyExtensionFailed err)).
Proof.
  intros Hparse Hreject Haccept.
  assert (CreateCustomCredential vcData (before ++ p :: after)
          = wrap ApplyExtensionFailed (Apply p vcBase vcData)) as E.
  { unfold CreateCustomCredential. rewrite Hparse. cbn [wrap mbind outcome_bind].
    rewrite CreateCustomCredential_loop_skip by done. simpl. by rewrite Haccept. }
  rewrite E. split; [done |]. split; [by intros obj -> | by intros err ->].
Qed.

(** C8. Once the base credential is parsed, if no producer accepts it,
    [CreateCustomCredential] returns the base credential itself, as a
    [Credential] and without error. *)
Theorem CreateCustomCredential_fallback (vcData : bytes) (vcBase : Credential)
    (producers : list CustomCredentialProducer) :
  verifiable_ParseCredential vcData [] = Returned vcBase ->
  (forall q, q ∈ producers -> Accept q vcBase = false) ->
  CreateCustomCredential vcData producers = Returned (PtrCredential vcBase).
Proof.
  intros Hparse Hreject.
  unfold CreateCustomCredential. rewrite Hparse. cbn [wrap mbind outcome_bind].
  rewrite <- (app_nil_r producers). by rewrite CreateCustomCredential_loop_skip.
Qed.

End ExtensionClaims.

(** ** The claims on the mock *)

Ltac run := vm_compute; reflexivity.

Ltac reaches_loop :=
  unfold Match_reaches_loop;
  split; [run | split; [exists []; split; run | split; run]].

Ltac processes ids result :=
  exists ids, result; split; [reaches_loop | run].

Lemma mock_select_not_Panicked (index : nat) (vp : Value) :
  mock_select index vp <> Panicked.
Proof.
  destruct vp as [| | | | |fields|]; simpl; try done.
  destruct (fields !! "verifiableCredential") as [[| | | |items| |]|]; try done.
  by destruct (items !! index).
Qed.

(** The mock is a library in the sense of [collaborators_return]. *)
Lemma mock_collaborators_return tokens ms :
  @collaborators_return (Fixture.collaborators tokens ms).
Proof.
  repeat split; simpl.
  - intros vp. unfold mock_MarshalJSON. by destruct (omap _ _).
  - done.
  - by intros [].
  - done.
  - intros jsonPath. unfold mock_NewEvaluable. by repeat destruct (String.eqb _ _).
  - intros jsonPath path vp. unfold mock_NewEvaluable.
    repeat destruct (String.eqb _ _); intros [= <-] || discriminate;
      apply mock_select_not_Panicked.
  - intros bits _. unfold Fixture.parse. by repeat destruct (String.eqb _ _).
Qed.

(** The messages of scenarios 4 and 5 of the spec name the descriptor id. *)
Example Error_unsatisfied_descriptor :
  Error (SubmissionRequirementsFailed (NoCredentialProvided "d2"))
  = "failed submission requirements: no credential provided for input descriptor d2".
Proof. reflexivity. Qed.

Example Error_unknown_descriptor_id :
  Error (UnknownDescriptorMapID "dX")
  = "an descriptor_map ID was found that did not match the `id` property of any input descriptor: dX".
Proof. reflexivity. Qed.

Example Error_schema_mismatch :
  Error (SchemaURINotInContext "d1" [Fixture.degreeURI]
           [Fixture.baseURI; Fixture.licenseURI])
  = "input descriptor id [d1] requires schema uri [[https://example.org/examples#UniversityDegreeCredential]] which is not in vc context [[https://www.w3.org/2018/credentials/v1 https://example.org/examples#DrivingLicense]]".
Proof. reflexivity. Qed.

(** Scenario 4 of the spec: [d1] and [d2] required, only [d1] mapped. *)
Lemma Match_coverage_witness :
  is_Some ((Fixture.matched "d1" Fixture.degree) !! "d1") /\
  @Match (Fixture.collaborators ["degree"] [Fixture.m1])
         (Fixture.definitions [Fixture.d1; Fixture.d2])
         (Fixture.vp [Fixture.m1]) []
  = Failed (SubmissionRequirementsFailed (NoCredentialProvided "d2")).
Proof.
  split.
  - refine (proj1 (@Match_coverage (Fixture.collaborators ["degree"] [Fixture.m1])
                     (Fixture.definitions [Fixture.d1]) (Fixture.vp [Fixture.m1]) [])
                  (Fixture.matched "d1" Fixture.degree) _ Fixture.d1 _).
    + run.
    + apply list_elem_of_here.
  - apply (proj2 (@Match_coverage (Fixture.collaborators ["degree"] [Fixture.m1])
                    (Fixture.definitions [Fixture.d1; Fixture.d2])
                    (Fixture.vp [Fixture.m1]) [])
                 ["d1"; "d2"] (Fixture.doc ["degree"] [Fixture.m1]) [Some Fixture.m1]
                 (Fixture.matched "d1" Fixture.degree)
                 ["d1"] "d2" []).
    + reaches_loop.
    + run.
    + reflexivity.
    + intros id' ->%list_elem_of_singleton. exists Fixture.degree. run.
    + run.
Defined.

(** Scenario 3 of the spec. *)
Lemma Match_keys_exact_witness :
  @Match (Fixture.collaborators ["degree"] [Fixture.m1])
         (Fixture.definitions [Fixture.d1]) (Fixture.vp [Fixture.m1]) []
  = Returned (Fixture.matched "d1" Fixture.degree) /\
  (exists ids,
      descriptorIDs (InputDescriptors (Fixture.definitions [Fixture.d1])) = Returned ids /\
      dom (Fixture.matched "d1" Fixture.degree) = list_to_set ids) /\
  (forall id, id ∈ dom (Fixture.matched "d1" Fixture.degree) <->
              exists d, Some d ∈ InputDescriptors (Fixture.definitions [Fixture.d1]) /\
                        ID d = id).
Proof.
  split; [run |].
  apply (@Match_keys_exact (Fixture.collaborators ["degree"] [Fixture.m1])
           (Fixture.definitions [Fixture.d1]) (Fixture.vp [Fixture.m1]) []).
  run.
Defined.

(** Scenario 5 of the spec, the unknown entry being followed by a nil one. *)
Lemma Match_unknown_descriptor_id_witness :
  @Match Fixture.collaborators_unknown
         (Fixture.definitions [Fixture.d1]) (Fixture.vp [Fixture.mX]) []
  = Failed (UnknownDescriptorMapID "dX").
Proof.
  apply (@Match_unknown_descriptor_id Fixture.collaborators_unknown
           (Fixture.definitions [Fixture.d1]) (Fixture.vp [Fixture.mX]) []
           (Fixture.doc ["degree"] [Fixture.mX]) [] [None] Fixture.mX).
  - processes ["d1"] (∅ : gmap string Credential).
  - intros d [= ->]%list_elem_of_singleton. discriminate.
Defined.

(** A matched degree credential, and a licence offered for the degree
    descriptor. *)
Lemma Match_schema_gate_witness :
  (exists vc d schema,
      @selectByPath (Fixture.collaborators ["degree"] [Fixture.m1])
        (Fixture.doc ["degree"] [Fixture.m1]) (Mapping_Path Fixture.m1) (applyOptions [])
        = Returned vc /\
      inputDescriptor (Fixture.definitions [Fixture.d1]) (Mapping_ID Fixture.m1)
        = Returned (Some d) /\
      Schema_ d = Some schema /\
      exists uri, uri ∈ Context vc /\ uri ∈ URI schema) /\
  @Match (Fixture.collaborators ["license"] [Fixture.m1])
         (Fixture.definitions [Fixture.d1]) (Fixture.vp [Fixture.m1]) []
  = Failed (SchemaURINotInContext "d1" [Fixture.degreeURI]
              [Fixture.baseURI; Fixture.licenseURI]).
Proof.
  split.
  - refine (proj1 (@Match_schema_gate (Fixture.collaborators ["degree"] [Fixture.m1])
                     (Fixture.definitions [Fixture.d1]) (Fixture.vp [Fixture.m1]) []
                     (Fixture.doc ["degree"] [Fixture.m1]))
                  ["d1"] [Some Fixture.m1] (Fixture.matched "d1" Fixture.degree)
                  _ _ Fixture.m1 _).
    + reaches_loop.
    + run.
    + apply list_elem_of_here.
  - refine (proj2 (@Match_schema_gate (Fixture.collaborators ["license"] [Fixture.m1])
                     (Fixture.definitions [Fixture.d1]) (Fixture.vp [Fixture.m1]) []
                     (Fixture.doc ["license"] [Fixture.m1]))
                  [] Fixture.m1 [] Fixture.license Fixture.d1
                  {| URI := [Fixture.degreeURI]; Schema_Name := ""; Schema_Purpose := "" |}
                  _ _ _ _ _).
    + processes ["d1"] (∅ : gmap string Credential).
    + run.
    + run.
    + reflexivity.
    + apply stringsIntersect_false. run.
Defined.

(** Two entries for [d1]: the credential of the second is the one returned. *)
Lemma Match_last_mapping_wins_witness :
  @Match (Fixture.collaborators ["degree"; "degree'"] [Fixture.m1; Fixture.m1'])
         (Fixture.definitions [Fixture.d1]) (Fixture.vp [Fixture.m1; Fixture.m1']) []
  = Returned (Fixture.matched "d1" Fixture.degree') /\
  exists vc vc',
    @selectByPath (Fixture.collaborators ["degree"; "degree'"] [Fixture.m1; Fixture.m1'])
      (Fixture.doc ["degree"; "degree'"] [Fixture.m1; Fixture.m1'])
      (Mapping_Path Fixture.m1) (applyOptions []) = Returned vc /\
    @selectByPath (Fixture.collaborators ["degree"; "degree'"] [Fixture.m1; Fixture.m1'])
      (Fixture.doc ["degree"; "degree'"] [Fixture.m1; Fixture.m1'])
      (Mapping_Path Fixture.m1') (applyOptions []) = Returned vc' /\
    Fixture.matched "d1" Fixture.degree' !! Mapping_ID Fixture.m1 = Some vc'.
Proof.
  split; [run |].
  apply (@Match_last_mapping_wins
           (Fixture.collaborators ["degree"; "degree'"] [Fixture.m1; Fixture.m1'])
           (Fixture.definitions [Fixture.d1]) (Fixture.vp [Fixture.m1; Fixture.m1']) []
           ["d1"] (Fixture.doc ["degree"; "degree'"] [Fixture.m1; Fixture.m1'])
           [] [] [] Fixture.m1 Fixture.m1' (Fixture.matched "d1" Fixture.degree')).
  - reaches_loop.
  - reflexivity.
  - intros m Hm. by apply elem_of_nil in Hm.
  - run.
Defined.

(** A descriptor without schema, referenced by a mapping that resolves. *)
Lemma Match_nil_schema_panics_witness :
  @Match (Fixture.collaborators ["degree"] [Fixture.m1])
         (Fixture.definitions [Fixture.d1_noSchema]) (Fixture.vp [Fixture.m1]) []
  = Panicked.
Proof.
  apply (@Match_nil_schema_panics (Fixture.collaborators ["degree"] [Fixture.m1])
           (Fixture.definitions [Fixture.d1_noSchema]) (Fixture.vp [Fixture.m1]) []
           (Fixture.doc ["degree"] [Fixture.m1]) [] [] Fixture.m1
           Fixture.degree Fixture.d1_noSchema).
  - processes ["d1"] (∅ : gmap string Credential).
  - run.
  - run.
  - reflexivity.
Defined.

(** Scenario 1 of the spec, with collaborators that panic when called. *)
Lemma Match_envelope_check_witness :
  @Match unreachable (Fixture.definitions [Fixture.d1]) Fixture.vp_noType []
  = Failed MissingJSONLDType.
Proof.
  apply (@Match_envelope_check unreachable
           (Fixture.definitions [Fixture.d1]) Fixture.vp_noType []).
  right. apply stringsContain_false. run.
Defined.

Lemma Match_malformed_submission_witness :
  @Match Fixture.parser (Fixture.definitions [Fixture.d1]) Fixture.vp_noSubmission []
  = Failed (ParseDescriptorMapFailed MissingSubmissionProperty) /\
  @Match Fixture.parser (Fixture.definitions [Fixture.d1]) Fixture.vp_noDescriptorMap []
  = Failed (ParseDescriptorMapFailed MissingDescriptorMapProperty).
Proof.
  split.
  - apply (@Match_malformed_submission Fixture.parser (Fixture.definitions [Fixture.d1])
             Fixture.vp_noSubmission [] [] (Fixture.doc [] []) ["d1"]); run.
  - apply (proj2 (@Match_malformed_submission Fixture.parser
                    (Fixture.definitions [Fixture.d1]) Fixture.vp_noDescriptorMap []
                    [] (Fixture.doc [] []) ["d1"]
                    ltac:(run) ltac:(run) ltac:(run) ltac:(run)) ∅); run.
Defined.

(** C5 as stated fails: this presentation passes the envelope check and has
    no [presentation_submission], yet the channel it holds makes its
    serialisation fail first and [Match] reports that failure instead. *)
Lemma Match_malformed_submission_counterexample :
  checkJSONLDContextType Fixture.vp_channel = Returned () /\
  asObject (VP_CustomFields Fixture.vp_channel !! submissionProperty) = None /\
  @Match Fixture.parser (Fixture.definitions [Fixture.d1]) Fixture.vp_channel []
  = Failed (MarshalVPFailed (External "json: unsupported type: chan int")) /\
  ~ exists err,
      @Match Fixture.parser (Fixture.definitions [Fixture.d1]) Fixture.vp_channel []
      = Failed (ParseDescriptorMapFailed err).
Proof.
  split; [run |]. split; [run |]. split; [run |].
  intros (err & E). vm_compute in E. discriminate.
Qed.

(** Scenario 2 of the spec, a producer that accepts everything coming last;
    and the failing producer coming before one that would succeed. *)
Lemma CreateCustomCredential_first_accept_wins_witness :
  @CreateCustomCredential Fixture.parser (Fixture.raw "degree'")
    [Fixture.cred1Producer; Fixture.cred2Producer; FailingCredentialProducer]
  = Returned (PtrCred2 Fixture.cred2) /\
  @CreateCustomCredential Fixture.parser (Fixture.raw "degree")
    [FailingCredentialProducer; Fixture.cred1Producer]
  = Failed (ApplyExtensionFailed (External "failed to apply credential extension")).
Proof.
  split.
  - apply (@CreateCustomCredential_first_accept_wins Fixture.parser
             (Fixture.raw "degree'") Fixture.degree'
             [Fixture.cred1Producer] [FailingCredentialProducer] Fixture.cred2Producer).
    + run.
    + intros q ->%list_elem_of_singleton. run.
    + run.
    + run.
  - apply (@CreateCustomCredential_first_accept_wins Fixture.parser
             (Fixture.raw "degree") Fixture.degree
             [] [Fixture.cred1Producer] FailingCredentialProducer).
    + run.
    + intros q Hq. by apply elem_of_nil in Hq.
    + run.
    + run.
Defined.

(** The third call of the test: no producer takes a plain credential. *)
Lemma CreateCustomCredential_fallback_witness :
  @CreateCustomCredential Fixture.parser (Fixture.raw "license")
    [Fixture.cred1Producer; Fixture.cred2Producer]
  = Returned (PtrCredential Fixture.license).
Proof.
  apply (@CreateCustomCredential_fallback Fixture.parser (Fixture.raw "license")
           Fixture.license [Fixture.cred1Producer; Fixture.cred2Producer]).
  - run.
  - intros q [->| ->%list_elem_of_singleton]%elem_of_cons; run.
Defined.

(** ** Further properties of [presexch/api.go] *)

(** X1. [stringsIntersect] answers true exactly when its two sequences share
    an element; the order of its arguments does not matter. *)
Theorem stringsIntersect_shared_element (a b : list string) :
  (stringsIntersect a b = true <-> exists x, x ∈ a /\ x ∈ b) /\
  stringsIntersect a b = stringsIntersect b a.
Proof.
  split; [apply stringsIntersect_true |].
  destruct (stringsIntersect a b) eqn:Eab, (stringsIntersect b a) eqn:Eba; try done.
  - apply stringsIntersect_true in Eab as (x & Ha & Hb).
    assert (stringsIntersect b a = true) by (apply stringsIntersect_true; eauto).
    congruence.
  - apply stringsIntersect_true in Eba as (x & Hb & Ha).
    assert (stringsIntersect a b = true) by (apply stringsIntersect_true; eauto).
    congruence.
Qed.

Lemma descriptorIDs_nil (before after : list (option InputDescriptor)) :
  descriptorIDs (before ++ None :: after) = Panicked.
Proof.
  induction before as [|[d|] before IH]; cbn; [done | | done]. by rewrite IH.
Qed.

(** X2. [descriptorIDs] returns the ids of the descriptors in their order,
    one per descriptor, and panics as soon as the list holds a nil pointer;
    it never fails with an error. *)
Theorem descriptorIDs_in_order :
  (forall ds : list InputDescriptor,
      descriptorIDs (Some <$> ds) = Returned (ID <$> ds)) /\
  (forall before after : list (option InputDescriptor),
      descriptorIDs (before ++ None :: after) = Panicked) /\
  (forall input err, descriptorIDs input <> Failed err).
Proof.
  split; [|split].
  - induction ds as [|d ds IH]; [done |]. cbn. rewrite IH. done.
  - apply descriptorIDs_nil.
  - induction input as [|[d|] input IH]; intros err; cbn; [done | | done].
    destruct (descriptorIDs input) as [ids|err'|] eqn:E; cbn; [done | | done].
    by destruct (IH err').
Qed.

Lemma inputDescriptor_loop_first (before after : list InputDescriptor)
    (d : InputDescriptor) (id : string) :
  (forall d', d' ∈ before -> ID d' <> id) -> ID d = id ->
  inputDescriptor_loop (Some <$> (before ++ d :: after)%list) id = Returned (Some d).
Proof.
  intros Hbefore Hd. induction before as [|d' before IH]; cbn.
  - rewrite Hd, String.eqb_refl. done.
  - destruct (String.eqb_spec (ID d') id) as [E|_]; [by destruct (Hbefore d'); [left |] |].
    apply IH. intros ??. apply Hbefore. by right.
Qed.

Lemma inputDescriptor_loop_absent (ds : list InputDescriptor) (id : string) :
  (forall d, d ∈ ds -> ID d <> id) ->
  inputDescriptor_loop (Some <$> ds) id = Returned None.
Proof.
  intros Habsent. induction ds as [|d ds IH]; cbn; [done |].
  destruct (String.eqb_spec (ID d) id) as [E|_]; [by destruct (Habsent d); [left |] |].
  apply IH. intros ??. apply Habsent. by right.
Qed.

(** X3. [inputDescriptor] answers the first descriptor of the definition
    that carries the id, whatever descriptors follow it (a later descriptor
    with the same id is never answered), and nil when no descriptor carries
    the id. *)
Theorem inputDescriptor_first_match (p : PresentationDefinitions) (id : string)
    (ds : list InputDescriptor) :
  InputDescriptors p = Some <$> ds ->
  (forall before d after,
      ds = (before ++ d :: after)%list ->
      (forall d', d' ∈ before -> ID d' <> id) -> ID d = id ->
      inputDescriptor p id = Returned (Some d)) /\
  ((forall d, d ∈ ds -> ID d <> id) -> inputDescriptor p id = Returned None).
Proof.
  intros Hds. unfold inputDescriptor. rewrite Hds. split.
  - intros before d after -> Hbefore Hd. by apply inputDescriptor_loop_first.
  - apply inputDescriptor_loop_absent.
Qed.

Section MatchFurther.
Context `{Collaborators}.

(** X4. When two descriptors of the definition carry the same id, the
    schema of the first one is the one [Match] enforces: a credential that
    shares no context with it is refused with the schema error of the first
    descriptor, whatever the schema of the later one. *)
Theorem Match_first_descriptor_schema (p : PresentationDefinitions) (vp : Presentation)
    (options : list MatchOption) (typelessVP : Value)
    (before after : list (option InputDescriptorMapping))
    (mapping : InputDescriptorMapping) (vc : Credential)
    (ds_before ds_after : list InputDescriptor) (d : InputDescriptor) (schema : Schema) :
  Match_processes p vp options typelessVP before mapping after ->
  selectByPath typelessVP (Mapping_Path mapping) (applyOptions options) = Returned vc ->
  InputDescriptors p = Some <$> (ds_before ++ d :: ds_after)%list ->
  (forall d', d' ∈ ds_before -> ID d' <> Mapping_ID mapping) ->
  ID d = Mapping_ID mapping ->
  Schema_ d = Some schema ->
  (forall uri, uri ∈ Context vc -> uri ∉ URI schema) ->
  Match p vp options = Failed (SchemaURINotInContext (ID d) (URI schema) (Context vc)).
Proof.
  intros Hproc Hsel Hds Hfirst Hid Hschema Hdisj.
  assert (inputDescriptor p (Mapping_ID mapping) = Returned (Some d)) as Hd.
  { unfold inputDescriptor. rewrite Hds. by apply inputDescriptor_loop_first. }
  apply Match_at_entry in Hproc as (ids & result & Hids & ->).
  cbn [Match_step]. rewrite (known_descriptor_id _ _ _ _ Hids Hd), Hsel.
  cbn [negb wrap mbind outcome_bind]. rewrite Hd. cbn [mbind outcome_bind].
  rewrite Hschema. apply stringsIntersect_false in Hdisj. by rewrite Hdisj.
Qed.

(** X6. When the loop of [Match] comes to an entry whose id is known and
    whose selection fails (the path does not compile or does not resolve,
    or the selected value is no credential), [Match] fails with that error
    wrapped as a selection failure; the descriptor is not looked at, so
    this holds even for a descriptor without schema. *)
Theorem Match_select_failure (p : PresentationDefinitions) (vp : Presentation)
    (options : list MatchOption) (typelessVP : Value)
    (before after : list (option InputDescriptorMapping))
    (mapping : InputDescriptorMapping) (err : error) :
  Match_processes p vp options typelessVP before mapping after ->
  (exists d, Some d ∈ InputDescriptors p /\ ID d = Mapping_ID mapping) ->
  selectByPath typelessVP (Mapping_Path mapping) (applyOptions options) = Failed err ->
  Match p vp options = Failed (SelectFailed err).
Proof.
  intros (ids & result & Hids & ->)%Match_at_entry Hknown Hsel.
  apply (descriptorIDs_Returned _ _ Hids), stringsContain_true in Hknown.
  cbn [Match_step]. by rewrite Hknown, Hsel.
Qed.

(** X7. A nil entry of the decoded descriptor map (a JSON null) makes
    [Match] panic when its loop comes to it. *)
Theorem Match_nil_mapping_panics (p : PresentationDefinitions) (vp : Presentation)
    (options : list MatchOption) (ids : list string) (typelessVP : Value)
    (before after : list (option InputDescriptorMapping))
    (result : gmap string Credential) :
  Match_reaches_loop p vp ids typelessVP (before ++ None :: after) ->
  Match_loop p ids typelessVP (applyOptions options) before ∅ = Returned result ->
  Match p vp options = Panicked.
Proof.
  intros Hreach Hbefore.
  rewrite (Match_from_loop _ _ options _ _ _ Hreach), Match_loop_app, Hbefore.
  reflexivity.
Qed.

(** X8. A nil pointer among the input descriptors of the definition makes
    [Match] panic as soon as the presentation passed the envelope check and
    its round trip through JSON, before the submission is even read. *)
Theorem Match_nil_descriptor_panics (p : PresentationDefinitions) (vp : Presentation)
    (options : list MatchOption) (vpBits : bytes) (typelessVP : Value) :
  checkJSONLDContextType vp = Returned () ->
  Presentation_MarshalJSON vp = Returned vpBits ->
  json_Unmarshal vpBits = Returned typelessVP ->
  None ∈ InputDescriptors p ->
  Match p vp options = Panicked.
Proof.
  intros Henv Hbits Htree (before & after & Hnil)%list_elem_of_split.
  unfold Match. rewrite Henv. cbn [mbind outcome_bind]. rewrite Hbits.
  cbn [wrap mbind outcome_bind]. rewrite Htree. cbn [wrap mbind outcome_bind].
  rewrite Hnil. by rewrite descriptorIDs_nil.
Qed.

End MatchFurther.

Lemma applyOptions_from (acc : MatchOptions) (opts : list CredentialOpt) :
  CredentialOptions (foldl (fun opts option => option opts) acc (optionFor <$> opts))
  = (CredentialOptions acc ++ opts)%list.
Proof.
  revert acc. induction opts as [|opt opts IH]; intros acc; cbn.
  - by rewrite app_nil_r.
  - rewrite IH. destruct opt; cbn; by rewrite <- app_assoc.
Qed.

(** X5. The three options of [Match] are additive: handed to [Match] in some
    order, they leave the parser options they stand for in that same order,
    one per option and nothing else. *)
Theorem applyOptions_in_order (opts : list CredentialOpt) :
  CredentialOptions (applyOptions (optionFor <$> opts)) = opts.
Proof. unfold applyOptions. by rewrite applyOptions_from. Qed.

Section MatchLoopFacts.
Context `{Collaborators}.
Implicit Types (p : PresentationDefinitions) (ids : list string) (typelessVP : Value).
Implicit Types (opts : MatchOptions) (result : gmap string Credential).

(** The step of an entry that passes every check, on any accumulated
    result. *)
Lemma Match_step_accepts p ids typelessVP opts result mapping vc d schema :
  Mapping_ID mapping ∈ ids ->
  selectByPath typelessVP (Mapping_Path mapping) opts = Returned vc ->
  inputDescriptor p (Mapping_ID mapping) = Returned (Some d) ->
  Schema_ d = Some schema ->
  stringsIntersect (Context vc) (URI schema) = true ->
  Match_step p ids typelessVP opts result (Some mapping)
  = Returned (<[Mapping_ID mapping := vc]> result).
Proof.
  intros Hid%stringsContain_true Hsel Hd Hschema Hmeet.
  cbn [Match_step]. rewrite Hid, Hsel. cbn [negb wrap mbind outcome_bind].
  rewrite Hd. cbn [mbind outcome_bind]. by rewrite Hschema, Hmeet.
Qed.

(** A step that went through on one accumulated result goes through on any
    other, inserting the same credential. *)
Lemma Match_step_any_result p ids typelessVP opts result result' mapping r :
  Match_step p ids typelessVP opts result (Some mapping) = Returned result' ->
  exists vc, result' = <[Mapping_ID mapping := vc]> result /\
             Match_step p ids typelessVP opts r (Some mapping)
             = Returned (<[Mapping_ID mapping := vc]> r).
Proof.
  intros (m & vc & d & schema & [= <-] & Hid & Hsel & Hd & Hschema & Hmeet & ->)
    %Match_step_Returned.
  exists vc. split; [done |]. by eapply Match_step_accepts.
Qed.

(** Where an entry of a returned result comes from. *)
Lemma Match_loop_origin p ids typelessVP opts descriptorMap result result' id vc :
  Match_loop p ids typelessVP opts descriptorMap result = Returned result' ->
  result' !! id = Some vc ->
  result !! id = Some vc \/
  exists mapping, Some mapping ∈ descriptorMap /\ Mapping_ID mapping = id /\
                  selectByPath typelessVP (Mapping_Path mapping) opts = Returned vc.
Proof.
  revert result. induction descriptorMap as [|entry rest IH]; cbn; intros result E Hvc.
  - injection E as ->. by left.
  - apply bind_Returned in E as (r & Hstep & E).
    destruct (IH _ E Hvc) as [Hr|(mapping & Hin & Hid & Hsel)].
    + apply Match_step_Returned in Hstep
        as (m & vc' & d & schema & -> & _ & Hsel & _ & _ & _ & ->).
      destruct (decide (Mapping_ID m = id)) as [Heq|Hne].
      * rewrite Heq, lookup_insert_eq in Hr. injection Hr as ->.
        right. exists m. split; [left | done].
      * rewrite lookup_insert_ne in Hr by done. by left.
    + right. exists mapping. split; [by right | done].
Qed.

(** The loop goes through when each entry passes its checks, and its result
    has a key for each entry. *)
Lemma Match_loop_accepts p ids typelessVP opts descriptorMap result :
  (forall entry, entry ∈ descriptorMap ->
     exists mapping vc d schema,
       entry = Some mapping /\ Mapping_ID mapping ∈ ids /\
       selectByPath typelessVP (Mapping_Path mapping) opts = Returned vc /\
       inputDescriptor p (Mapping_ID mapping) = Returned (Some d) /\
       Schema_ d = Some schema /\
       stringsIntersect (Context vc) (URI schema) = true) ->
  exists result',
    Match_loop p ids typelessVP opts descriptorMap result = Returned result' /\
    (forall id, is_Some (result !! id) -> is_Some (result' !! id)) /\
    (forall mapping, Some mapping ∈ descriptorMap -> is_Some (result' !! Mapping_ID mapping)).
Proof.
  revert result. induction descriptorMap as [|entry rest IH]; intros result Hall.
  - exists result. split; [done |]. split; [done |]. by intros ? ?%elem_of_nil.
  - destruct (Hall entry) as (mapping & vc & d & schema & -> & Hid & Hsel & Hd & Hs & Hm);
      [left |].
    destruct (IH (<[Mapping_ID mapping := vc]> result)) as (result' & Hloop & Hkeep & Hkeys).
    { intros ??. apply Hall. by right. }
    exists result'. cbn [Match_loop].
    rewrite (Match_step_accepts _ _ _ _ _ _ _ _ _ Hid Hsel Hd Hs Hm). split; [done |].
    split.
    + intros id Hsome. apply Hkeep. destruct (decide (Mapping_ID mapping = id)) as [<-|?].
      * by rewrite lookup_insert_eq.
      * by rewrite lookup_insert_ne.
    + intros m [[= ->]|Hin]%elem_of_cons; [|by apply Hkeys].
      apply Hkeep. by rewrite lookup_insert_eq.
Qed.

Lemma evalSubmissionRequirements_loop_accepts ids result :
  (forall id, id ∈ ids -> is_Some (result !! id)) ->
  evalSubmissionRequirements_loop ids result = Returned ().
Proof.
  induction ids as [|id rest IH]; intros Hall; cbn; [done |].
  destruct (Hall id) as [vc ->]; [left |]. apply IH. intros ??. apply Hall. by right.
Qed.

End MatchLoopFacts.

Section MatchAccepts.
Context `{Collaborators}.

(** X10. A submission is accepted when [Match] reaches its loop, every
    entry of the descriptor map selects a credential that shares a context
    with the schema of the descriptor found for its id, and every
    descriptor id of the definition is the id of some entry. *)
Theorem Match_accepts (p : PresentationDefinitions) (vp : Presentation)
    (options : list MatchOption) (ids : list string) (typelessVP : Value)
    (descriptorMap : list (option InputDescriptorMapping)) :
  Match_reaches_loop p vp ids typelessVP descriptorMap ->
  (forall entry, entry ∈ descriptorMap ->
     exists mapping vc d schema,
       entry = Some mapping /\
       selectByPath typelessVP (Mapping_Path mapping) (applyOptions options)
         = Returned vc /\
       inputDescriptor p (Mapping_ID mapping) = Returned (Some d) /\
       Schema_ d = Some schema /\
       exists uri, uri ∈ Context vc /\ uri ∈ URI schema) ->
  (forall id, id ∈ ids -> exists mapping, Some mapping ∈ descriptorMap /\
                                          Mapping_ID mapping = id) ->
  exists result, Match p vp options = Returned result.
Proof.
  intros Hreach Hall Hcover. pose proof Hreach as (_ & _ & Hids & _).
  destruct (Match_loop_accepts p ids typelessVP (applyOptions options) descriptorMap ∅)
    as (result & Hloop & _ & Hkeys).
  { intros entry (mapping & vc & d & schema & -> & Hsel & Hd & Hs & Hmeet)%Hall.
    exists mapping, vc, d, schema. repeat split; auto.
    - apply stringsContain_true. by eapply known_descriptor_id.
    - by apply stringsIntersect_true. }
  exists result. rewrite (Match_from_loop _ _ options _ _ _ Hreach), Hloop.
  cbn [mbind outcome_bind]. unfold evalSubmissionRequirements. rewrite Hids.
  cbn [mbind outcome_bind]. rewrite evalSubmissionRequirements_loop_accepts; [done |].
  intros id (mapping & Hin & <-)%Hcover. by apply Hkeys.
Qed.

(** X11. Every credential of a result returned by [Match] is the credential
    selected by the path of some entry of the descriptor map that carries
    the key as id. *)
Theorem Match_result_sound (p : PresentationDefinitions) (vp : Presentation)
    (options : list MatchOption) (ids : list string) (typelessVP : Value)
    (descriptorMap : list (option InputDescriptorMapping))
    (result : gmap string Credential) (id : string) (vc : Credential) :
  Match_reaches_loop p vp ids typelessVP descriptorMap ->
  Match p vp options = Returned result ->
  result !! id = Some vc ->
  exists mapping,
    Some mapping ∈ descriptorMap /\ Mapping_ID mapping = id /\
    selectByPath typelessVP (Mapping_Path mapping) (applyOptions options) = Returned vc.
Proof.
  intros Hreach E Hvc. rewrite (Match_from_loop _ _ options _ _ _ Hreach) in E.
  apply bind_Returned in E as (result' & Hloop & E).
  apply bind_Returned in E as (? & _ & [= ->]).
  destruct (Match_loop_origin _ _ _ _ _ _ _ _ _ Hloop Hvc) as [Hempty|?]; [|done].
  by rewrite lookup_empty in Hempty.
Qed.

(** X12. The order of the entries of a descriptor map whose ids are pairwise
    distinct does not matter to the loop of [Match]: when it returns a
    result on the entries in one order, it returns the same result on them
    in any other order. *)
Theorem Match_loop_permutation (p : PresentationDefinitions) (ids : list string)
    (typelessVP : Value) (opts : MatchOptions)
    (ms ms' : list InputDescriptorMapping) (result result' : gmap string Credential) :
  ms ≡ₚ ms' ->
  NoDup (Mapping_ID <$> ms) ->
  Match_loop p ids typelessVP opts (Some <$> ms) result = Returned result' ->
  Match_loop p ids typelessVP opts (Some <$> ms') result = Returned result'.
Proof.
  intros Hperm. revert result result'.
  induction Hperm as [|m ms ms' _ IH|m1 m2 ms|ms ms' ms'' Hperm IH Hperm' IH'];
    intros result result' Hnodup E.
  - done.
  - cbn [fmap list_fmap Match_loop] in *.
    apply bind_Returned in E as (r & Hstep & E). rewrite Hstep. cbn [mbind outcome_bind].
    apply IH; [|done]. by apply NoDup_cons in Hnodup as [_ ?].
  - cbn [fmap list_fmap Match_loop] in *.
    apply bind_Returned in E as (r1 & Hstep1 & E).
    apply bind_Returned in E as (r2 & Hstep2 & E).
    destruct (Match_step_any_result _ _ _ _ _ _ _ result Hstep2) as (vc & Hr2 & Hfirst).
    destruct (Match_step_any_result _ _ _ _ _ _ _ (<[Mapping_ID m1 := vc]> result) Hstep1)
      as (vc' & Hr1 & Hsecond).
    rewrite Hfirst. cbn [mbind outcome_bind]. rewrite Hsecond. cbn [mbind outcome_bind].
    rewrite <- E, Hr2, Hr1. f_equal. apply insert_insert_ne.
    apply NoDup_cons in Hnodup as [Hnotin _]. intros Heq. apply Hnotin.
    cbn [fmap list_fmap]. rewrite <- Heq. left.
  - apply IH'; [by rewrite <- Hperm |]. by apply IH.
Qed.

End MatchAccepts.

(** ** The further properties of [presexch] on the mock *)

Lemma inputDescriptor_first_match_witness :
  inputDescriptor (Fixture.definitions [Fixture.d1; Scenario.d1_license]) "d1"
  = Returned (Some Fixture.d1) /\
  inputDescriptor (Fixture.definitions [Fixture.d1; Scenario.d1_license]) "dX"
  = Returned None.
Proof.
  split.
  - refine (proj1 (inputDescriptor_first_match
                     (Fixture.definitions [Fixture.d1; Scenario.d1_license]) "d1"
                     [Fixture.d1; Scenario.d1_license] eq_refl)
                  [] Fixture.d1 [Scenario.d1_license] eq_refl _ eq_refl).
    intros d' Hin. by apply elem_of_nil in Hin.
  - apply (proj2 (inputDescriptor_first_match
                    (Fixture.definitions [Fixture.d1; Scenario.d1_license]) "dX"
                    [Fixture.d1; Scenario.d1_license] eq_refl)).
    intros d [->| ->%list_elem_of_singleton]%elem_of_cons; discriminate.
Defined.

(** A licence offered for [d1], which a degree descriptor and a licence
    descriptor both claim: the degree descriptor, coming first, decides. *)
Lemma Match_first_descriptor_schema_witness :
  @Match (Fixture.collaborators ["license"] [Fixture.m1])
         (Fixture.definitions [Fixture.d1; Scenario.d1_license])
         (Fixture.vp [Fixture.m1]) []
  = Failed (SchemaURINotInContext "d1" [Fixture.degreeURI]
              [Fixture.baseURI; Fixture.licenseURI]).
Proof.
  apply (@Match_first_descriptor_schema (Fixture.collaborators ["license"] [Fixture.m1])
           (Fixture.definitions [Fixture.d1; Scenario.d1_license])
           (Fixture.vp [Fixture.m1]) [] (Fixture.doc ["license"] [Fixture.m1])
           [] [] Fixture.m1 Fixture.license
           [] [Scenario.d1_license] Fixture.d1 Scenario.degreeSchema).
  - processes ["d1"; "d1"] (∅ : gmap string Credential).
  - run.
  - reflexivity.
  - intros d' Hin. by apply elem_of_nil in Hin.
  - reflexivity.
  - reflexivity.
  - apply stringsIntersect_false. run.
Defined.

(** A path that does not compile, for a descriptor without schema. *)
Lemma Match_select_failure_witness :
  @Match (Fixture.collaborators ["degree"] [Scenario.mNowhere])
         (Fixture.definitions [Fixture.d1_noSchema]) (Fixture.vp [Scenario.mNowhere]) []
  = Failed (SelectFailed (BuildEvaluatorFailed (External "parsing error"))).
Proof.
  apply (@Match_select_failure (Fixture.collaborators ["degree"] [Scenario.mNowhere])
           (Fixture.definitions [Fixture.d1_noSchema]) (Fixture.vp [Scenario.mNowhere]) []
           (Fixture.doc ["degree"] [Scenario.mNowhere]) [] [] Scenario.mNowhere).
  - processes ["d1"] (∅ : gmap string Credential).
  - exists Fixture.d1_noSchema. split; [left | reflexivity].
  - run.
Defined.

Lemma Match_nil_mapping_panics_witness :
  @Match Scenario.collaborators_null (Fixture.definitions [Fixture.d1])
         (Fixture.vp [Fixture.m1]) []
  = Panicked.
Proof.
  apply (@Match_nil_mapping_panics Scenario.collaborators_null
           (Fixture.definitions [Fixture.d1]) (Fixture.vp [Fixture.m1]) []
           ["d1"] (Fixture.doc ["degree"] [Fixture.m1]) [Some Fixture.m1] []
           (Fixture.matched "d1" Fixture.degree)).
  - reaches_loop.
  - run.
Defined.

(** The nil descriptor is met before the missing submission is noticed. *)
Lemma Match_nil_descriptor_panics_witness :
  @Match Fixture.parser Scenario.definitions_nil Fixture.vp_noSubmission [] = Panicked.
Proof.
  apply (@Match_nil_descriptor_panics Fixture.parser Scenario.definitions_nil
           Fixture.vp_noSubmission [] [] (Fixture.doc [] [])).
  - run.
  - run.
  - run.
  - right. left.
Defined.

Lemma Match_returns_or_fails_witness :
  @Match (Fixture.collaborators ["degree"] [Fixture.m1])
         (Fixture.definitions [Fixture.d1]) (Fixture.vp [Fixture.m1]) []
  <> Panicked.
Proof.
  apply (@Match_returns_or_fails (Fixture.collaborators ["degree"] [Fixture.m1])
           (Fixture.definitions [Fixture.d1]) (Fixture.vp [Fixture.m1]) []).
  - apply mock_collaborators_return.
  - intros entry ->%list_elem_of_singleton.
    by exists Fixture.d1, Scenario.degreeSchema.
  - intros descriptorMap E. vm_compute in E. injection E as <-.
    by intros [=]%list_elem_of_singleton.
Defined.

Lemma Match_accepts_witness :
  exists result,
    @Match (Fixture.collaborators ["degree"] [Fixture.m1])
           (Fixture.definitions [Fixture.d1]) (Fixture.vp [Fixture.m1]) []
    = Returned result.
Proof.
  apply (@Match_accepts (Fixture.collaborators ["degree"] [Fixture.m1])
           (Fixture.definitions [Fixture.d1]) (Fixture.vp [Fixture.m1]) []
           ["d1"] (Fixture.doc ["degree"] [Fixture.m1]) [Some Fixture.m1]).
  - reaches_loop.
  - intros entry ->%list_elem_of_singleton.
    exists Fixture.m1, Fixture.degree, Fixture.d1, Scenario.degreeSchema.
    split; [reflexivity |]. split; [run |]. split; [run |]. split; [reflexivity |].
    exists Fixture.degreeURI. split; [right; left | left].
  - intros id ->%list_elem_of_singleton. exists Fixture.m1. split; [left | reflexivity].
Defined.

Lemma Match_result_sound_witness :
  exists mapping,
    Some mapping ∈ [Some Fixture.m1] /\ Mapping_ID mapping = "d1" /\
    @selectByPath (Fixture.collaborators ["degree"] [Fixture.m1])
      (Fixture.doc ["degree"] [Fixture.m1]) (Mapping_Path mapping) (applyOptions [])
    = Returned Fixture.degree.
Proof.
  apply (@Match_result_sound (Fixture.collaborators ["degree"] [Fixture.m1])
           (Fixture.definitions [Fixture.d1]) (Fixture.vp [Fixture.m1]) []
           ["d1"] (Fixture.doc ["degree"] [Fixture.m1]) [Some Fixture.m1]
           (Fixture.matched "d1" Fixture.degree) "d1" Fixture.degree).
  - reaches_loop.
  - run.
  - run.
Defined.

(** The licence entry first, then the degree entry. *)
Lemma Match_loop_permutation_witness :
  @Match_loop (Fixture.collaborators ["degree"; "license"] [Fixture.m1; Fixture.m2])
    (Fixture.definitions [Fixture.d1; Fixture.d2]) ["d1"; "d2"]
    (Fixture.doc ["degree"; "license"] [Fixture.m1; Fixture.m2]) (applyOptions [])
    (Some <$> [Fixture.m2; Fixture.m1]) ∅
  = Returned Scenario.both.
Proof.
  apply (@Match_loop_permutation
           (Fixture.collaborators ["degree"; "license"] [Fixture.m1; Fixture.m2])
           (Fixture.definitions [Fixture.d1; Fixture.d2]) ["d1"; "d2"]
           (Fixture.doc ["degree"; "license"] [Fixture.m1; Fixture.m2]) (applyOptions [])
           [Fixture.m1; Fixture.m2] [Fixture.m2; Fixture.m1]).
  - apply perm_swap.
  - apply NoDup_cons. split; [by intros [=]%list_elem_of_singleton | apply NoDup_singleton].
  - run.
Defined.

(** ** Properties of the base packager *)

Section PackagerFacts.
Import packager.

Lemma firstOfType_app (encType : string) (l l' : list Packer) :
  firstOfType encType (l ++ l')
  = match firstOfType encType l with
    | Some q => Some q
    | None => firstOfType encType l'
    end.
Proof.
  unfold firstOfType. induction l as [|q l IH]; cbn; [done |].
  by destruct (String.eqb (EncodingType q) encType).
Qed.

Lemma firstOfType_Some (encType : string) (l : list Packer) (q : Packer) :
  firstOfType encType l = Some q -> EncodingType q = encType.
Proof.
  unfold firstOfType. intros [_ E]%find_some. by apply String.eqb_eq.
Qed.

(** The registrations of the loop of [New]: a type already taken stays with
    its packer. *)
Lemma New_loop_registers (bp : Packager) (inbound : list Packer) :
  exists bp',
    New_loop bp (Some <$> inbound) = Returned bp' /\
    packer bp' = packer bp /\
    forall encType,
      inboundPackers bp' !! encType
      = match inboundPackers bp !! encType with
        | Some q => Some q
        | None => firstOfType encType inbound
        end.
Proof.
  revert bp. induction inbound as [|q inbound IH]; intros bp.
  - exists bp. split; [done |]. split; [done |]. intros encType.
    by destruct (inboundPackers bp !! encType).
  - cbn [fmap list_fmap New_loop addPacker].
    destruct (inboundPackers bp !! EncodingType q) as [q0|] eqn:Htaken;
      cbn [mbind outcome_bind].
    + destruct (IH bp) as (bp' & Hloop & Hpacker & Hreg).
      exists bp'. split; [done |]. split; [done |]. intros encType. rewrite Hreg.
      destruct (inboundPackers bp !! encType) eqn:E; [done |].
      unfold firstOfType. cbn.
      destruct (String.eqb_spec (EncodingType q) encType) as [<-|_]; [congruence | done].
    + destruct (IH {| packer := packer bp;
                      inboundPackers := <[EncodingType q := q]> (inboundPackers bp) |})
        as (bp' & Hloop & Hpacker & Hreg).
      exists bp'. split; [done |]. split; [done |]. intros encType. rewrite Hreg. cbn.
      unfold firstOfType. cbn.
      destruct (String.eqb_spec (EncodingType q) encType) as [<-|Hne].
      * by rewrite lookup_insert_eq, Htaken.
      * by rewrite lookup_insert_ne.
Qed.

Lemma New_loop_nil (bp : Packager) (packers : list (option Packer)) :
  None ∈ packers -> New_loop bp packers = Panicked.
Proof.
  revert bp. induction packers as [|[q|] packers IH]; intros bp Hin.
  - by apply elem_of_nil in Hin.
  - apply elem_of_cons in Hin as [[=]|Hin]. cbn [New_loop addPacker].
    destruct (inboundPackers bp !! EncodingType q); cbn [mbind outcome_bind]; by apply IH.
  - done.
Qed.

Lemma non_nil_packers (packers : list (option Packer)) :
  None ∉ packers -> exists inbound, packers = Some <$> inbound.
Proof.
  induction packers as [|[q|] packers IH]; intros Hnil.
  - by exists [].
  - destruct IH as (inbound & ->); [intros ?; apply Hnil; by right |]. by exists (q :: inbound).
  - destruct Hnil. left.
Qed.

Lemma nil_or_not (packers : list (option Packer)) :
  None ∈ packers \/ exists inbound, packers = Some <$> inbound.
Proof.
  induction packers as [|[q|] packers [Hnil|(inbound & ->)]].
  - right. by exists [].
  - left. by right.
  - right. by exists (q :: inbound).
  - left. left.
  - left. left.
Qed.

(** What [New] returns, when it returns. *)
Lemma New_Returned (ctx : Provider) (bp : Packager) :
  New ctx = Returned bp ->
  exists inbound out,
    InboundPackers ctx = Some <$> inbound /\
    Provider_Packer ctx = Some out /\
    packer bp = Some out /\
    forall encType, inboundPackers bp !! encType = firstOfType encType (inbound ++ [out]).
Proof.
  unfold New. intros E.
  destruct (nil_or_not (InboundPackers ctx)) as [Hnil|(inbound & Hinbound)].
  { by rewrite New_loop_nil in E. }
  rewrite Hinbound in E.
  destruct (New_loop_registers {| packer := None; inboundPackers := ∅ |} inbound)
    as (bp0 & Hloop & _ & Hreg).
  rewrite Hloop in E. cbn [mbind outcome_bind] in E.
  destruct (Provider_Packer ctx) as [out|]; [|discriminate].
  exists inbound, out. split; [done |]. split; [done |].
  cbn [addPacker packer inboundPackers] in E.
  assert (forall encType, inboundPackers bp0 !! encType = firstOfType encType inbound)
    as Hreg'.
  { intros encType. rewrite Hreg. cbn. by rewrite lookup_empty. }
  destruct (inboundPackers bp0 !! EncodingType out) as [q|] eqn:Htaken;
    injection E as <-; (split; [done |]); intros encType; cbn;
    rewrite firstOfType_app.
  - rewrite Hreg'.
    destruct (firstOfType encType inbound) eqn:Hfirst; [done |].
    unfold firstOfType at 1. cbn.
    destruct (String.eqb_spec (EncodingType out) encType) as [<-|_]; [|done].
    rewrite Hreg' in Htaken. congruence.
  - unfold firstOfType at 2. cbn.
    destruct (String.eqb_spec (EncodingType out) encType) as [<-|Hne].
    + rewrite lookup_insert_eq. rewrite Hreg' in Htaken. by rewrite Htaken.
    + rewrite lookup_insert_ne by done. rewrite Hreg'.
      by destruct (firstOfType encType inbound).
Qed.

(** X13. The packager made by [New] packs with the provider's outbound
    packer and holds, for each encoding type, the first packer of that type
    among the inbound packers followed by the outbound one: a packer
    registered earlier is never replaced. *)
Theorem New_registry (ctx : Provider) (bp : Packager) :
  New ctx = Returned bp ->
  exists inbound out,
    InboundPackers ctx = Some <$> inbound /\
    Provider_Packer ctx = Some out /\
    packer bp = Some out /\
    forall encType, inboundPackers bp !! encType = firstOfType encType (inbound ++ [out]).
Proof. apply New_Returned. Qed.

(** X14. [New] panics on a nil inbound packer, even without outbound
    packer; with inbound packers that are all there, it fails with "need
    outbound packer to initialize packager" exactly when the provider has no
    outbound packer, and returns a packager otherwise. *)
Theorem New_outcome (ctx : Provider) :
  (None ∈ InboundPackers ctx -> New ctx = Panicked) /\
  (None ∉ InboundPackers ctx ->
   match Provider_Packer ctx with
   | None => New ctx = Failed (errorf "need outbound packer to initialize packager")
   | Some _ => exists bp, New ctx = Returned bp
   end).
Proof.
  unfold New. split.
  - intros Hnil. by rewrite New_loop_nil.
  - intros (inbound & ->)%non_nil_packers.
    destruct (New_loop_registers {| packer := None; inboundPackers := ∅ |} inbound)
      as (bp0 & -> & _ & _). cbn [mbind outcome_bind].
    destruct (Provider_Packer ctx) as [out|]; [|done].
    cbn [addPacker]. destruct (_ !! _); by eexists.
Qed.

(** X15. In a packager made by [New] every registered packer sits under its
    own encoding type, and some packer is registered for the encoding type
    the packager packs with. *)
Theorem New_invariant (ctx : Provider) (bp : Packager) :
  New ctx = Returned bp ->
  (forall encType q, inboundPackers bp !! encType = Some q -> EncodingType q = encType) /\
  (exists out q, packer bp = Some out /\
                 inboundPackers bp !! EncodingType out = Some q).
Proof.
  intros (inbound & out & _ & _ & Hpacker & Hreg)%New_Returned. split.
  - intros encType q. rewrite Hreg. apply firstOfType_Some.
  - exists out. rewrite Hreg, firstOfType_app.
    destruct (firstOfType (EncodingType out) inbound) as [q|]; [by exists q |].
    exists out. split; [done |]. unfold firstOfType. cbn. by rewrite String.eqb_refl.
Qed.

End PackagerFacts.

Section PackagerMethods.
Import packager.
Context `{Libraries}.

(** X16. [UnpackMessage] on a packager made by [New] hands the message to
    the first packer of the message's encoding type among the inbound
    packers followed by the outbound one, and returns an envelope holding
    only the unpacked message; with no packer of that type it fails with
    "message Type not recognized". *)
Theorem UnpackMessage_dispatch (ctx : Provider) (bp : Packager)
    (inbound : list Packer) (out : Packer) (encMessage : bytes) (encType : string) :
  New ctx = Returned bp ->
  InboundPackers ctx = Some <$> inbound ->
  Provider_Packer ctx = Some out ->
  getEncodingType encMessage = Returned encType ->
  UnpackMessage bp encMessage
  = match firstOfType encType (inbound ++ [out]) with
    | None => Failed (errorf "message Type not recognized")
    | Some q =>
        bytes ← wrapf "unpack: " (Unpack q encMessage);
        Returned {| Message := bytes; FromVerKey := ""; ToVerKeys := [] |}
    end.
Proof.
  intros (inbound' & out' & Hin & Hout & _ & Hreg)%New_Returned Hinbound Hpacker Htype.
  rewrite Hinbound in Hin. apply (inj (fmap Some)) in Hin as <-.
  rewrite Hpacker in Hout. injection Hout as <-.
  unfold UnpackMessage. rewrite Htype. cbn [wrapf wrap mbind outcome_bind].
  by rewrite Hreg.
Qed.

(** X17. [PackMessage] refuses a nil envelope; on a packager made by [New]
    it packs with the provider's outbound packer, whatever inbound packer
    is registered for the same encoding type, handing it the message, the
    decoded sender key and the decoded recipient keys in their order, and
    prefixes a failure of the packer with "pack: ". *)
Theorem PackMessage_outbound (ctx : Provider) (bp : Packager) (out : Packer)
    (messageEnvelope : Envelope) :
  New ctx = Returned bp ->
  Provider_Packer ctx = Some out ->
  PackMessage bp None = Failed (errorf "envelope argument is nil") /\
  PackMessage bp (Some messageEnvelope)
  = wrapf "pack: "
      (Pack out (Message messageEnvelope) (base58_Decode (FromVerKey messageEnvelope))
            (base58_Decode <$> ToVerKeys messageEnvelope)).
Proof.
  intros (inbound & out' & _ & Hout & Hpacker & _)%New_Returned Hprovider.
  rewrite Hprovider in Hout. injection Hout as <-.
  split; [done |]. unfold PackMessage. by rewrite Hpacker.
Qed.

(** X18. [getEncodingType] reads the protected header with the padded
    decoding when it succeeds, with the unpadded one otherwise; when both
    fail it fails with the error of the padded decoding behind "decode
    header: ". *)
Theorem getEncodingType_decoding (encMessage : bytes) (env : envelopeStub) :
  json_Unmarshal_envelopeStub encMessage = Returned env ->
  (forall protBytes1,
      base64_URLEncoding_DecodeString (Protected env) = Returned protBytes1 ->
      base64_RawURLEncoding_DecodeString (Protected env) <> Panicked ->
      getEncodingType encMessage
      = (prot ← wrapf "parse header: " (json_Unmarshal_headerStub protBytes1);
         Returned (headerStub_Type prot))) /\
  (forall err1 protBytes2,
      base64_URLEncoding_DecodeString (Protected env) = Failed err1 ->
      base64_RawURLEncoding_DecodeString (Protected env) = Returned protBytes2 ->
      getEncodingType encMessage
      = (prot ← wrapf "parse header: " (json_Unmarshal_headerStub protBytes2);
         Returned (headerStub_Type prot))) /\
  (forall err1 err2,
      base64_URLEncoding_DecodeString (Protected env) = Failed err1 ->
      base64_RawURLEncoding_DecodeString (Protected env) = Failed err2 ->
      getEncodingType encMessage = Failed (errorf ("decode header: " ++ Error err1))).
Proof.
  intros Henv. unfold getEncodingType. rewrite Henv. cbn [wrapf wrap mbind outcome_bind].
  split; [|split].
  - intros protBytes1 -> Hraw. cbn [attempt mbind outcome_bind].
    by destruct (base64_RawURLEncoding_DecodeString (Protected env)).
  - by intros err1 protBytes2 -> ->.
  - by intros err1 err2 -> ->.
Qed.

End PackagerMethods.

(** ** Properties of the messaging steps *)

Section MessagingSteps.
Import messaging.
Context `{ConnectionStore}.

Lemma sendMessage_loop_first (before : list Record_) (conn : Record_)
    (after : list (option Record_)) (toAgentID : string) :
  (forall c, c ∈ before -> ~ (State c = "completed" /\ TheirLabel c = toAgentID)) ->
  State conn = "completed" -> TheirLabel conn = toAgentID ->
  sendMessage_loop ((Some <$> before) ++ Some conn :: after) toAgentID
  = Returned (Some conn).
Proof.
  intros Hbefore Hstate Hlabel.
  induction before as [|c before IH]; cbn [sendMessage_loop fmap list_fmap app].
  - by rewrite Hstate, Hlabel, !String.eqb_refl.
  - destruct (String.eqb_spec (State c) "completed") as [Hs|_];
      [destruct (String.eqb_spec (TheirLabel c) toAgentID) as [Hl|_] |];
      cbn [andb].
    + destruct (Hbefore c); [left | done].
    + apply IH. intros ??. apply Hbefore. by right.
    + apply IH. intros ??. apply Hbefore. by right.
Qed.

Lemma sendMessage_loop_none (connections : list Record_) (toAgentID : string) :
  (forall c, c ∈ connections -> ~ (State c = "completed" /\ TheirLabel c = toAgentID)) ->
  sendMessage_loop (Some <$> connections) toAgentID = Returned None.
Proof.
  intros Hnone.
  induction connections as [|c connections IH]; cbn [sendMessage_loop fmap list_fmap];
    [done |].
  destruct (String.eqb_spec (State c) "completed") as [Hs|_];
    [destruct (String.eqb_spec (TheirLabel c) toAgentID) as [Hl|_] |]; cbn [andb].
  - destruct (Hnone c); [left | done].
  - apply IH. intros ??. apply Hnone. by right.
  - apply IH. intros ??. apply Hnone. by right.
Qed.

(** X19. [sendMessage] sends between the two DIDs of the first connection
    record that is completed and labelled with the destination agent,
    whatever records follow it, and prefixes a failure of the messenger with
    the name of the destination. *)
Theorem sendMessage_first_completed_connection (bddContext : BDDContext)
    (fromAgentID toAgentID : string) (msg : gmap string Value)
    (messenger : Messenger) (ctx : AgentContext) (lookup : Lookup)
    (before : list Record_) (conn : Record_) (after : list (option Record_)) :
  Messengers bddContext !! fromAgentID = Some messenger ->
  AgentCtx bddContext !! fromAgentID = Some ctx ->
  connection_NewLookup ctx = Returned lookup ->
  QueryConnectionRecords lookup
  = Returned ((Some <$> before) ++ Some conn :: after)%list ->
  (forall c, c ∈ before -> ~ (State c = "completed" /\ TheirLabel c = toAgentID)) ->
  State conn = "completed" ->
  TheirLabel conn = toAgentID ->
  sendMessage bddContext fromAgentID toAgentID msg
  = wrapf ("failed to send message to agent[" ++ toAgentID ++ "] : ")
          (Send messenger msg (MyDID conn) (TheirDID conn)).
Proof.
  intros Hmessenger Hctx Hlookup Hquery Hbefore Hstate Hlabel.
  unfold sendMessage. rewrite Hmessenger, Hctx, Hlookup.
  cbn [replacef wrap mbind outcome_bind]. rewrite Hquery.
  cbn [replacef wrap mbind outcome_bind].
  by rewrite sendMessage_loop_first.
Qed.

(** X20. When no connection record is completed and labelled with the
    destination agent, [sendMessage] panics on the missing target instead of
    returning an error, and nothing is sent. *)
Theorem sendMessage_no_connection_panics (bddContext : BDDContext)
    (fromAgentID toAgentID : string) (msg : gmap string Value)
    (messenger : Messenger) (ctx : AgentContext) (lookup : Lookup)
    (connections : list Record_) :
  Messengers bddContext !! fromAgentID = Some messenger ->
  AgentCtx bddContext !! fromAgentID = Some ctx ->
  connection_NewLookup ctx = Returned lookup ->
  QueryConnectionRecords lookup = Returned (Some <$> connections) ->
  (forall c, c ∈ connections -> ~ (State c = "completed" /\ TheirLabel c = toAgentID)) ->
  sendMessage bddContext fromAgentID toAgentID msg = Panicked.
Proof.
  intros Hmessenger Hctx Hlookup Hquery Hnone.
  unfold sendMessage. rewrite Hmessenger, Hctx, Hlookup.
  cbn [replacef wrap mbind outcome_bind]. rewrite Hquery.
  cbn [replacef wrap mbind outcome_bind].
  by rewrite sendMessage_loop_none.
Qed.

(** X21. [sendMessage] looks for the messenger of the sender before its
    context, and reports a failure of the connection lookup, or of the
    query, by a fixed message that drops the cause. *)
Theorem sendMessage_errors (bddContext : BDDContext)
    (fromAgentID toAgentID : string) (msg : gmap string Value) :
  (Messengers bddContext !! fromAgentID = None ->
   sendMessage bddContext fromAgentID toAgentID msg
   = Failed (errorf ("unable to find messenger for agent `" ++ fromAgentID ++ "`"))) /\
  (forall messenger,
      Messengers bddContext !! fromAgentID = Some messenger ->
      AgentCtx bddContext !! fromAgentID = None ->
      sendMessage bddContext fromAgentID toAgentID msg
      = Failed (errorf ("unable to find context for agent `" ++ fromAgentID ++ "`"))) /\
  (forall messenger ctx,
      Messengers bddContext !! fromAgentID = Some messenger ->
      AgentCtx bddContext !! fromAgentID = Some ctx ->
      (forall err,
          connection_NewLookup ctx = Failed err ->
          sendMessage bddContext fromAgentID toAgentID msg
          = Failed (errorf "failed to get connection lookup")) /\
      (forall lookup err,
          connection_NewLookup ctx = Returned lookup ->
          QueryConnectionRecords lookup = Failed err ->
          sendMessage bddContext fromAgentID toAgentID msg
          = Failed (errorf "failed to query connections"))).
Proof.
  unfold sendMessage. split; [by intros -> |]. split; [by intros messenger -> -> |].
  intros messenger ctx -> ->. split.
  - by intros err ->.
  - intros lookup err ->. cbn [replacef wrap mbind outcome_bind]. by intros ->.
Qed.

End MessagingSteps.

(** ** Properties of the [Context] of the JavaScript steps *)

Section TestSteps.
Import test_steps.

Lemma Array_pop_push (array : list JSValue) (result : JSValue) :
  Array_pop (array ++ [result]) = (result, array).
Proof. unfold Array_pop. by rewrite last_snoc, removelast_last. Qed.

Lemma pushResults_results (this : Context) (name : string) (rs : list JSValue) :
  rs <> [] ->
  pushResults this name rs
  = {| agents := agents this;
       results := <[name := (default [] (results this !! name) ++ rs)%list]> (results this) |}.
Proof.
  revert this. induction rs as [|r rs IH]; intros this Hrs; [done |].
  unfold pushResults. cbn [foldl]. fold (pushResults (pushResult this name r) name rs).
  destruct rs as [|r' rs].
  - cbn. unfold pushResult. by destruct (results this !! name).
  - rewrite IH by done. unfold pushResult.
    destruct (results this !! name) as [array|]; cbn;
      rewrite lookup_insert_eq, insert_insert_eq; cbn; [by rewrite <- app_assoc | done].
Qed.

Lemma popResults_stack (this : Context) (name : string) (array rs : list JSValue) :
  results this !! name = Some (array ++ rs)%list ->
  popResults this name (length rs)
  = (rev rs, {| agents := agents this; results := <[name := array]> (results this) |}).
Proof.
  revert this. induction rs as [|r rs IH] using rev_ind; intros this Hname.
  - cbn. rewrite app_nil_r in Hname. rewrite insert_id by done. by destruct this.
  - rewrite length_app, Nat.add_1_r, rev_unit. cbn [popResults].
    unfold popResult. rewrite Hname, app_assoc, Array_pop_push.
    rewrite (IH {| agents := agents this;
                   results := <[name := (array ++ rs)%list]> (results this) |})
      by (cbn; apply lookup_insert_eq).
    cbn. by rewrite insert_insert_eq.
Qed.

(** X22. The results pushed under a name come back last in, first out: after
    pushing some results, popping as many of them returns them in reverse
    order and leaves under the name the array that was there before (an
    empty array if there was none), every other entry being untouched. *)
Theorem popResults_pushResults (this : Context) (name : string) (rs : list JSValue) :
  rs <> [] ->
  popResults (pushResults this name rs) name (length rs)
  = (rev rs,
     {| agents := agents this;
        results := <[name := default [] (results this !! name)]> (results this) |}).
Proof.
  intros Hrs. rewrite pushResults_results by done.
  rewrite (popResults_stack _ name (default [] (results this !! name)) rs)
    by (cbn; apply lookup_insert_eq).
  cbn. by rewrite insert_insert_eq.
Qed.

(** X23. Popping under a name that has no array, or whose array is empty,
    answers [undefined] and changes nothing. *)
Theorem popResult_nothing (this : Context) (name : string) :
  results this !! name = None \/ results this !! name = Some [] ->
  popResult this name = (undefined, this).
Proof.
  unfold popResult. intros [-> | Hempty]; [done |]. rewrite Hempty. cbn.
  rewrite insert_id by done. by destruct this.
Qed.

(** X24. The results of two names do not interfere: popping under one name
    after pushing under another answers what it answered before the push,
    and the two operations can be done in either order. *)
Theorem popResult_pushResult_other (this : Context) (name name' : string)
    (result : JSValue) :
  name <> name' ->
  popResult (pushResult this name result) name'
  = (fst (popResult this name'), pushResult (snd (popResult this name')) name result).
Proof.
  intros Hne. unfold popResult, pushResult.
  destruct (results this !! name) as [array|] eqn:Hname;
    destruct (results this !! name') as [array'|] eqn:Hname'; cbn;
    rewrite ?lookup_insert_ne, ?Hname, ?Hname' by done; try done;
    destruct (Array_pop array') as [popped rest]; cbn;
    rewrite lookup_insert_ne, Hname by done; f_equal; f_equal;
    by apply insert_insert_ne.
Qed.

(** X25. [aries] answers the instance last registered under the name by
    [addAries], and [undefined] for a name under which none was registered;
    registering an instance leaves the other names and the results alone. *)
Theorem aries_addAries (this : Context) (name name' : string) (instance : JSValue) :
  aries (addAries this name instance) name'
  = (if decide (name = name') then instance else aries this name') /\
  aries constructor name = undefined /\
  results (addAries this name instance) = results this.
Proof.
  unfold aries, addAries, constructor. cbn. split; [|by rewrite lookup_empty].
  destruct (decide (name = name')) as [<-|Hne].
  - by rewrite lookup_insert_eq.
  - by rewrite lookup_insert_ne.
Qed.

End TestSteps.

(** ** The further properties on the test packers, agents and contexts *)

Lemma New_registry_witness :
  exists inbound out,
    packager.InboundPackers PackagerFixture.provider = Some <$> inbound /\
    packager.Provider_Packer PackagerFixture.provider = Some out /\
    packager.packer PackagerFixture.packager = Some out /\
    forall encType,
      packager.inboundPackers PackagerFixture.packager !! encType
      = packager.firstOfType encType (inbound ++ [out]).
Proof.
  apply (New_registry PackagerFixture.provider PackagerFixture.packager). run.
Defined.

Lemma New_outcome_witness :
  packager.New PackagerFixture.provider_nilInbound = Panicked /\
  packager.New PackagerFixture.provider_noOutbound
  = Failed (errorf "need outbound packer to initialize packager").
Proof.
  split.
  - apply (proj1 (New_outcome PackagerFixture.provider_nilInbound)). right. left.
  - apply (proj2 (New_outcome PackagerFixture.provider_noOutbound)).
    intros [[=]|[=]%list_elem_of_singleton]%elem_of_cons.
Defined.

Lemma New_invariant_witness :
  (forall encType q,
      packager.inboundPackers PackagerFixture.packager !! encType = Some q ->
      packager.EncodingType q = encType) /\
  (exists out q,
      packager.packer PackagerFixture.packager = Some out /\
      packager.inboundPackers PackagerFixture.packager !! packager.EncodingType out
      = Some q).
Proof.
  apply (New_invariant PackagerFixture.provider PackagerFixture.packager). run.
Defined.

(** A message of the outbound packer's type goes to the inbound packer
    registered for that type before it. *)
Lemma UnpackMessage_dispatch_witness :
  @packager.UnpackMessage PackagerFixture.libraries PackagerFixture.packager
    (PackagerFixture.text "JWM/1.0=")
  = Returned {| packager.Message := PackagerFixture.text "inbound:JWM/1.0=";
                packager.FromVerKey := ""; packager.ToVerKeys := [] |}.
Proof.
  apply (@UnpackMessage_dispatch PackagerFixture.libraries
           PackagerFixture.provider PackagerFixture.packager
           [PackagerFixture.legacyInbound; PackagerFixture.authcrypt]
           PackagerFixture.legacyOutbound (PackagerFixture.text "JWM/1.0=") "JWM/1.0");
    run.
Defined.

Lemma PackMessage_outbound_witness :
  @packager.PackMessage PackagerFixture.libraries PackagerFixture.packager None
  = Failed (errorf "envelope argument is nil") /\
  @packager.PackMessage PackagerFixture.libraries PackagerFixture.packager
    (Some PackagerFixture.envelope)
  = Returned (PackagerFixture.text "outbound:helloABC").
Proof.
  apply (@PackMessage_outbound PackagerFixture.libraries
           PackagerFixture.provider PackagerFixture.packager
           PackagerFixture.legacyOutbound PackagerFixture.envelope); run.
Defined.

(** A padded header, an unpadded one, and one that is not base64. *)
Lemma getEncodingType_decoding_witness :
  @packager.getEncodingType PackagerFixture.libraries (PackagerFixture.text "JWM/1.0=")
  = Returned "JWM/1.0" /\
  @packager.getEncodingType PackagerFixture.libraries (PackagerFixture.text "authcrypt")
  = Returned "authcrypt" /\
  @packager.getEncodingType PackagerFixture.libraries (PackagerFixture.text "!")
  = Failed (errorf "decode header: illegal base64 data at input byte 0").
Proof.
  split; [|split].
  - apply (proj1 (@getEncodingType_decoding PackagerFixture.libraries
                    (PackagerFixture.text "JWM/1.0=")
                    {| packager.Protected := "JWM/1.0=" |} eq_refl)
                 (PackagerFixture.text "JWM/1.0")); [run | discriminate].
  - apply (proj1 (proj2 (@getEncodingType_decoding PackagerFixture.libraries
                           (PackagerFixture.text "authcrypt")
                           {| packager.Protected := "authcrypt" |} eq_refl))
                 (External "illegal base64 data at input byte 8")
                 (PackagerFixture.text "authcrypt")); run.
  - apply (proj2 (proj2 (@getEncodingType_decoding PackagerFixture.libraries
                           (PackagerFixture.text "!")
                           {| packager.Protected := "!" |} eq_refl))
                 (External "illegal base64 data at input byte 0")
                 (External "illegal base64 data at input byte 0")); run.
Defined.

(** Alice writes to Bob: the third record is the first completed connection
    to Bob, and a second one follows it. *)
Lemma sendMessage_first_completed_connection_witness :
  @messaging.sendMessage MessagingFixture.store MessagingFixture.bddContext
    "Alice" "Bob" ∅
  = Failed (errorf "failed to send message to agent[Bob] : did:alice:2 -> did:bob:2").
Proof.
  apply (@sendMessage_first_completed_connection MessagingFixture.store
           MessagingFixture.bddContext "Alice" "Bob" ∅ MessagingFixture.echo
           (messaging.AgentContext_ 0) (messaging.Lookup_ 0)
           [MessagingFixture.requestedBob; MessagingFixture.completedCarol]
           MessagingFixture.completedBob
           [Some MessagingFixture.completedBob'; None]).
  - run.
  - run.
  - reflexivity.
  - reflexivity.
  - intros c [->| ->%list_elem_of_singleton]%elem_of_cons [Hstate Hlabel]; discriminate.
  - reflexivity.
  - reflexivity.
Defined.

(** Erin has no completed connection to Bob. *)
Lemma sendMessage_no_connection_panics_witness :
  @messaging.sendMessage MessagingFixture.store MessagingFixture.bddContext
    "Erin" "Bob" ∅
  = Panicked.
Proof.
  apply (@sendMessage_no_connection_panics MessagingFixture.store
           MessagingFixture.bddContext "Erin" "Bob" ∅ MessagingFixture.echo
           (messaging.AgentContext_ 2) (messaging.Lookup_ 2)
           [MessagingFixture.requestedBob; MessagingFixture.completedCarol]).
  - run.
  - run.
  - reflexivity.
  - reflexivity.
  - intros c [->| ->%list_elem_of_singleton]%elem_of_cons [Hstate Hlabel]; discriminate.
Defined.

(** Heidi has no messenger, Grace no context; the store of Dave is closed and
    the store of Frank fails the query. *)
Lemma sendMessage_errors_witness :
  @messaging.sendMessage MessagingFixture.store MessagingFixture.bddContext
    "Heidi" "Bob" ∅
  = Failed (errorf "unable to find messenger for agent `Heidi`") /\
  @messaging.sendMessage MessagingFixture.store MessagingFixture.bddContext
    "Grace" "Bob" ∅
  = Failed (errorf "unable to find context for agent `Grace`") /\
  @messaging.sendMessage MessagingFixture.store MessagingFixture.bddContext
    "Dave" "Bob" ∅
  = Failed (errorf "failed to get connection lookup") /\
  @messaging.sendMessage MessagingFixture.store MessagingFixture.bddContext
    "Frank" "Bob" ∅
  = Failed (errorf "failed to query connections").
Proof.
  split; [|split; [|split]].
  - apply (proj1 (@sendMessage_errors MessagingFixture.store
                    MessagingFixture.bddContext "Heidi" "Bob" ∅)). run.
  - apply (proj1 (proj2 (@sendMessage_errors MessagingFixture.store
                           MessagingFixture.bddContext "Grace" "Bob" ∅))
                 MessagingFixture.echo); run.
  - apply (proj1 (proj2 (proj2 (@sendMessage_errors MessagingFixture.store
                                  MessagingFixture.bddContext "Dave" "Bob" ∅))
                        MessagingFixture.echo (messaging.AgentContext_ 1)
                        ltac:(run) ltac:(run))
                 (External "store is closed")). reflexivity.
  - apply (proj2 (proj2 (proj2 (@sendMessage_errors MessagingFixture.store
                                  MessagingFixture.bddContext "Frank" "Bob" ∅))
                        MessagingFixture.echo (messaging.AgentContext_ 3)
                        ltac:(run) ltac:(run))
                 (messaging.Lookup_ 3) (External "query failed")); reflexivity.
Defined.

(** Two results pushed for Alice on a fresh context, then popped. *)
Lemma popResults_pushResults_witness :
  test_steps.popResults
    (test_steps.pushResults test_steps.constructor "Alice"
       [test_steps.JSString "hello"; test_steps.JSString "world"])
    "Alice" 2
  = ([test_steps.JSString "world"; test_steps.JSString "hello"],
     {| test_steps.agents := ∅; test_steps.results := <["Alice" := []]> ∅ |}).
Proof.
  apply (popResults_pushResults test_steps.constructor "Alice"
           [test_steps.JSString "hello"; test_steps.JSString "world"]).
  discriminate.
Defined.

Lemma popResult_nothing_witness :
  test_steps.popResult test_steps.constructor "Alice"
  = (test_steps.undefined, test_steps.constructor) /\
  test_steps.popResult
    {| test_steps.agents := ∅; test_steps.results := <["Alice" := []]> ∅ |} "Alice"
  = (test_steps.undefined,
     {| test_steps.agents := ∅; test_steps.results := <["Alice" := []]> ∅ |}).
Proof.
  split.
  - apply (popResult_nothing test_steps.constructor "Alice"). left. run.
  - apply (popResult_nothing
             {| test_steps.agents := ∅; test_steps.results := <["Alice" := []]> ∅ |}
             "Alice").
    right. run.
Defined.

Lemma popResult_pushResult_other_witness :
  test_steps.popResult
    (test_steps.pushResult
       (test_steps.pushResult test_steps.constructor "Alice" (test_steps.JSString "a"))
       "Bob" (test_steps.JSString "b"))
    "Alice"
  = (test_steps.JSString "a",
     test_steps.pushResult
       {| test_steps.agents := ∅; test_steps.results := <["Alice" := []]> ∅ |}
       "Bob" (test_steps.JSString "b")).
Proof.
  apply (popResult_pushResult_other
           (test_steps.pushResult test_steps.constructor "Alice" (test_steps.JSString "a"))
           "Bob" "Alice" (test_steps.JSString "b")).
  discriminate.
Defined.

(** ** What the producers of the test file share *)

Section ProducersHeap.
Import producers.
Context `{Unmarshaller}.

(** X26. A [Cred1] producer returns itself: two applications that succeed
    return the same pointer, and the object behind it then embeds the
    credential of the second application, so that what the first
    application returned has changed. *)
Theorem Cred1_Apply_returns_receiver (c1 : loc) (vc vc' : Credential)
    (dataJSON dataJSON' : bytes) (h h1 h2 : Heap) (r r' : Pointer) :
  Cred1_Apply c1 vc dataJSON h = (Returned r, h1) ->
  Cred1_Apply c1 vc' dataJSON' h1 = (Returned r', h2) ->
  r = ToCred1 c1 /\ r' = ToCred1 c1 /\
  (exists object, cred1s h1 !! c1 = Some object /\ Cred1_Base object = vc) /\
  (exists object, cred1s h2 !! c1 = Some object /\ Cred1_Base object = vc').
Proof.
  unfold Cred1_Apply. intros E E'.
  destruct (cred1s h !! c1) as [object|]; [|discriminate].
  destruct (json_Unmarshal_into_Cred1 dataJSON object) as [object1 [err|]];
    [discriminate |].
  injection E as <- <-. cbn [cred1s] in E'. rewrite lookup_insert_eq in E'.
  destruct (json_Unmarshal_into_Cred1 dataJSON' _) as [object2 [err|]]; [discriminate |].
  injection E' as <- <-. cbn [cred1s]. rewrite !lookup_insert_eq.
  split; [done |]. split; [done |]. split; by eexists.
Qed.

(** X27. [Cred2Producer] returns a new object at each application: two
    applications that succeed return different pointers, and the object of
    the first still embeds the first credential after the second. *)
Theorem Cred2Producer_Apply_returns_new (vc vc' : Credential)
    (dataJSON dataJSON' : bytes) (h h1 h2 : Heap) (r r' : Pointer) :
  Cred2Producer_Apply vc dataJSON h = (Returned r, h1) ->
  Cred2Producer_Apply vc' dataJSON' h1 = (Returned r', h2) ->
  r <> r' /\
  exists l object, r = ToCred2 l /\ cred2s h1 !! l = Some object /\
                   cred2s h2 !! l = Some object /\ Cred2_Base object = vc.
Proof.
  unfold Cred2Producer_Apply. intros E E'.
  destruct (json_Unmarshal_into_Cred2 dataJSON zeroCred2) as [object1 [err|]];
    [discriminate |].
  injection E as <- <-. cbn [cred2s] in E'.
  destruct (json_Unmarshal_into_Cred2 dataJSON' zeroCred2) as [object2 [err|]];
    [discriminate |].
  injection E' as <- <-. cbn [cred2s].
  set (l := fresh (dom (cred2s h))).
  set (l' := fresh (dom (<[l := setBase2 object1 vc]> (cred2s h)))).
  assert (l <> l') as Hne.
  { intros Heq. apply (is_fresh (dom (<[l := setBase2 object1 vc]> (cred2s h)))).
    fold l'. rewrite <- Heq, dom_insert_L. set_solver. }
  split; [congruence |].
  exists l, (setBase2 object1 vc). split; [done |].
  rewrite lookup_insert_eq, lookup_insert_ne, lookup_insert_eq by done. done.
Qed.

End ProducersHeap.

Lemma Cred1_Apply_returns_receiver_witness :
  (exists object, producers.cred1s producers.heap1 !! 0 = Some object /\
                  Cred1_Base object = Fixture.degree) /\
  (exists object, producers.cred1s producers.heap2 !! 0 = Some object /\
                  Cred1_Base object = Fixture.license).
Proof.
  refine (proj2 (proj2 (@Cred1_Apply_returns_receiver producers.textDecoder 0
                          Fixture.degree Fixture.license
                          (Fixture.raw "first") (Fixture.raw "second")
                          producers.heap0 producers.heap1 producers.heap2
                          (producers.ToCred1 0) (producers.ToCred1 0) _ _))); run.
Defined.

Lemma Cred2Producer_Apply_returns_new_witness :
  producers.ToCred2 0 <> producers.ToCred2 1 /\
  exists l object,
    producers.ToCred2 0 = producers.ToCred2 l /\
    producers.cred2s producers.heap1' !! l = Some object /\
    producers.cred2s producers.heap2' !! l = Some object /\
    Cred2_Base object = Fixture.degree.
Proof.
  apply (@Cred2Producer_Apply_returns_new producers.textDecoder
           Fixture.degree Fixture.license (Fixture.raw "first") (Fixture.raw "second")
           producers.emptyHeap producers.heap1' producers.heap2'); run.
Defined.
